(** * The candidate core of decomp-permuter ([src/candidate.py])

    A shallow embedding of [Candidate] and [CandidateResult]: the shared,
    memoised syntax tree, copy-on-write construction, the rendering cache,
    compilation, and scoring with its artifact clean-up.

    Python objects that are aliased live in an explicit store; the methods of
    [Candidate] are computations in a state-and-exception monad whose state
    survives a raised exception, as the mutations of a Python object do. *)

From Stdlib Require Import ZArith Lia.
From stdpp Require Import base option list strings.

(** ** Exceptions, and the state-and-exception monad *)

Inductive exn :=
  | IndexError                (* list assignment index out of range *)
  | AttributeError            (* the object has not the class the code expects *)
  | Raised (name : string).   (* whatever a collaborator signals *)

Definition M (S A : Type) : Type := S → (exn + A) * S.

Definition ret {S A} (a : A) : M S A := λ s, (inr a, s).

Definition raise {S A} (e : exn) : M S A := λ s, (inl e, s).

Definition bind {S A B} (m : M S A) (k : A → M S B) : M S B :=
  λ s, match m s with
       | (inl e, s') => (inl e, s')
       | (inr a, s') => k a s'
       end.

(** [try: body finally: fin].  The clean-up runs on every exit path of the
    body; an exception of the clean-up itself replaces the body's outcome. *)
Definition try_finally {S A} (body : M S A) (fin : M S unit) : M S A :=
  λ s, match body s with
       | (r, s') =>
           match fin s' with
           | (inl e, s'') => (inl e, s'')
           | (inr _, s'') => (r, s'')
           end
       end.

Definition get {S} : M S S := λ s, (inr s, s).
Definition modify {S} (f : S → S) : M S unit := λ s, (inr tt, f s).

Declare Scope py_scope.
Delimit Scope py_scope with py.
Notation "'let*' x := m 'in' k" := (bind m (λ x, k))
  (at level 10, x binder, m at level 200, k at level 200) : py_scope.
Open Scope py_scope.

(** A computation on a component of the state, run on the whole state. *)
Definition zoom {S T A} (proj : S → T) (upd : T → S → S) (m : M T A) : M S A :=
  λ s, match m (proj s) with (r, t) => (r, upd t s) end.

(** ** The object store *)

(** References are indices into the store. *)
Abbreviation loc := nat (only parsing).

(** The content of a [c_ast] node: its class and its children.  A top-level
    declaration is one mutable cell of the store that holds such a subtree;
    changing the declaration in place is an update of its cell. *)
#[warnings="-register-all"]
Inductive node := Node (kind : string) (children : list node).

(** A [ca.FileAST] object: its attribute [ext] refers to a list object. *)
Record FileAST := mkFileAST { ext : loc }.

(** Objects by class.  A reference is an index into the store of its class;
    allocation appends, so references never dangle once handed out. *)
Record Heap := mkHeap {
  files : list FileAST;       (* ca.FileAST objects *)
  lists : list (list loc);    (* list objects, holding references to nodes *)
  nodes : list node           (* top-level declarations *)
}.

Definition empty_heap : Heap := mkHeap [] [] [].

(** [copy.copy(ast)] on a [FileAST]: a new object, same attribute values. *)
Definition copy_copy_file (a : loc) : M Heap loc :=
  λ h, match files h !! a with
       | Some o => (inr (length (files h)), mkHeap (files h ++ [o]) (lists h) (nodes h))
       | None => (inl AttributeError, h)
       end.

(** [copy.copy(l)] on a list: a new list object, same elements. *)
Definition copy_copy_list (e : loc) : M Heap loc :=
  λ h, match lists h !! e with
       | Some items => (inr (length (lists h)), mkHeap (files h) (lists h ++ [items]) (nodes h))
       | None => (inl AttributeError, h)
       end.

(** [copy.deepcopy(fn)] on a declaration: a new cell, equal content, nothing
    shared with the original. *)
Definition copy_deepcopy (f : loc) : M Heap loc :=
  λ h, match nodes h !! f with
       | Some n => (inr (length (nodes h)), mkHeap (files h) (lists h) (nodes h ++ [n]))
       | None => (inl AttributeError, h)
       end.

(** [ast.ext] *)
Definition getattr_ext (a : loc) : M Heap loc :=
  λ h, match files h !! a with
       | Some o => (inr (ext o), h)
       | None => (inl AttributeError, h)
       end.

(** [ast.ext = e] *)
Definition setattr_ext (a e : loc) : M Heap unit :=
  λ h, match files h !! a with
       | Some _ => (inr tt, mkHeap (<[a := mkFileAST e]> (files h)) (lists h) (nodes h))
       | None => (inl AttributeError, h)
       end.

(** Python's list indexing: [0 <= i < len] counts from the front,
    [-len <= i < 0] from the back, anything else is out of range. *)
Definition py_index (len : nat) (i : Z) : option nat :=
  if decide (0 ≤ i < Z.of_nat len)%Z then Some (Z.to_nat i)
  else if decide (- Z.of_nat len ≤ i < 0)%Z then Some (Z.to_nat (Z.of_nat len + i))
  else None.

(** [l[i] = v] *)
Definition list_setitem (e : loc) (i : Z) (v : loc) : M Heap unit :=
  λ h, match lists h !! e with
       | Some items =>
           match py_index (length items) i with
           | Some n => (inr tt, mkHeap (files h) (<[e := <[n := v]> items]> (lists h)) (nodes h))
           | None => (inl IndexError, h)
           end
       | None => (inl AttributeError, h)
       end.

(** What a reader of the tree rooted at the file object [a] sees. *)
Definition read_tree (h : Heap) (a : loc) : option node :=
  o ← files h !! a;
  items ← lists h !! ext o;
  decls ← mapM (λ l, nodes h !! l) items;
  Some (Node "FileAST" decls).

(** ** The shared-tree cache: [functools.lru_cache(maxsize=16)]

    The bounded wrapper of CPython's [functools]: a dictionary from keys to
    links and a queue of the links, oldest first.  Here the queue is a list
    of (key, result) pairs and the dictionary is the search in it. *)

Section lru_cache.
Context {S K V : Type} `{EqDecision K}.

Fixpoint cache_get (key : K) (c : list (K * V)) : option V :=
  match c with
  | [] => None
  | (k, v) :: c' => if decide (k = key) then Some v else cache_get key c'
  end.

Fixpoint unlink (key : K) (c : list (K * V)) : list (K * V) :=
  match c with
  | [] => []
  | (k, v) :: c' => if decide (k = key) then c' else (k, v) :: unlink key c'
  end.

Variable maxsize : nat.
Variable cache_of : S → list (K * V).
Variable put_cache : list (K * V) → S → S.
Variable user_function : K → M S V.

Definition lru_cache_wrapper (key : K) : M S V :=
  let* s := get in
  match cache_get key (cache_of s) with
  | Some result =>
      (* a hit: move the link to the young end of the queue *)
      let* _ := modify (put_cache (unlink key (cache_of s) ++ [(key, result)])) in
      ret result
  | None =>
      (* a miss: an exception of the user function leaves the cache alone *)
      let* result := user_function key in
      let* s := get in
      let* _ :=
        match cache_get key (cache_of s) with
        | Some _ => ret tt
        | None =>
            if decide (maxsize ≤ length (cache_of s))
            then modify (put_cache (tail (cache_of s) ++ [(key, result)]))
            else modify (put_cache (cache_of s ++ [(key, result)]))
        end in
      ret result
  end.
End lru_cache.

(** The cache in the words of its specification: the keys that were used, in
    the order of their last use, oldest first; of those, the [maxsize]
    youngest are kept. *)
Definition touch {K} `{EqDecision K} (key : K) (keys : list K) : list K :=
  filter (λ k, k ≠ key) keys ++ [key].

Definition youngest {K} (maxsize : nat) (keys : list K) : list K :=
  drop (length keys - maxsize) keys.

Definition lru_keys_spec {K} `{EqDecision K} (maxsize : nat) (key : K) (keys : list K)
    : list K :=
  youngest maxsize (touch key keys).

(** ** The world outside a candidate *)

(** Calls that leave the candidate core, in the order they are made. *)
Inductive event :=
  | EvParse (source fn_name : string)
  | EvRender (a : loc)
  | EvCompile (source : string) (show_errors : bool)
  | EvScore (o_file : option string)
  | EvRemove (path : string).

Record World := mkWorld {
  heap : Heap;
  cache : list ((string * string) * (loc * Z * loc));
  fs : list string;            (* the paths that exist on the file system *)
  log : list event
}.

Definition init_world : World := mkWorld empty_heap [] [] [].

Definition set_heap (h : Heap) (w : World) : World := mkWorld h (cache w) (fs w) (log w).
Definition set_cache (c : list ((string * string) * (loc * Z * loc))) (w : World) : World :=
  mkWorld (heap w) c (fs w) (log w).
Definition set_fs (f : list string) (w : World) : World := mkWorld (heap w) (cache w) f (log w).

Definition on_heap {A} (m : M Heap A) : M World A := zoom heap set_heap m.
Definition on_fs {A} (m : M (list string) A) : M World A := zoom fs set_fs m.
Definition emit (ev : event) : M World unit :=
  modify (λ w, mkWorld (heap w) (cache w) (fs w) (log w ++ [ev])).

(** Modelled from the spec: [helpers.try_remove], which is not among the
    sources.  It removes the path from persistent storage and does not fail
    when the path is already gone. *)
Definition try_remove (path : string) : M World unit :=
  let* _ := emit (EvRemove path) in
  on_fs (modify (filter (λ q, q ≠ path))).

(** ** The collaborators *)

Record Compiler := mkCompiler {
  compiler_compile : string → bool → M (list string) (option string)
}.

Record Scorer := mkScorer {
  scorer_score : option string → M (list string) (Z * string)
}.

Class Collaborators := {
  (* randomizer.Randomizer: its state, its constructor, its one method *)
  Rng : Type;
  Randomizer : Z → Rng;
  Randomizer_randomize : loc → Z → M (Rng * Heap) unit;
  (* pycparser.CParser().parse, ast_util.extract_fn, ast_util.normalize_ast *)
  CParser_parse : string → M Heap loc;
  extract_fn : loc → string → M Heap (loc * Z);
  normalize_ast : loc → loc → M Heap unit;
  (* ast_util.to_c, on the content of the tree it is given *)
  to_c : node → exn + string;
  (* profiler.Profiler and its default instance *)
  Profiler : Type;
  Profiler_default : Profiler
}.

(** ** [CandidateResult] and [Candidate] *)

Section candidate.
Context `{Collaborators}.

(** The fields are filled from the candidate's attributes, which are
    optional there. *)
Record CandidateResult := mkCandidateResult {
  score_ : option Z;
  hash : option string;
  source : option string;
  profiler : Profiler
}.

Record Candidate := mkCandidate {
  ast : loc;
  orig_fn : loc;
  fn_index : Z;
  rng_seed : Z;
  randomizer : Rng;
  score_value : option Z;
  score_hash : option string;
  _cache_source : option string
}.

(** The parser and the two passes of [ast_util] that the cache wraps. *)
Definition _cached_shared_ast_wrapped (key : string * string) : M World (loc * Z * loc) :=
  let '(source, fn_name) := key in
  let* _ := emit (EvParse source fn_name) in
  let* ast := on_heap (CParser_parse source) in
  let* '(orig_fn, fn_index) := on_heap (extract_fn ast fn_name) in
  let* _ := on_heap (normalize_ast orig_fn ast) in
  ret (orig_fn, fn_index, ast).

Definition _cached_shared_ast (source fn_name : string) : M World (loc * Z * loc) :=
  lru_cache_wrapper 16 cache set_cache _cached_shared_ast_wrapped (source, fn_name).

Definition from_source (source fn_name : string) (rng_seed : Z) : M World Candidate :=
  let* '(orig_fn, fn_index, ast) := _cached_shared_ast source fn_name in
  let* ast := on_heap (copy_copy_file ast) in
  let* e := on_heap (getattr_ext ast) in
  let* e' := on_heap (copy_copy_list e) in
  let* _ := on_heap (setattr_ext ast e') in
  let* fn := on_heap (copy_deepcopy orig_fn) in
  let* e := on_heap (getattr_ext ast) in
  let* _ := on_heap (list_setitem e fn_index fn) in
  ret (mkCandidate ast orig_fn fn_index rng_seed (Randomizer rng_seed) None None None).

(** Methods run on the pair of [self] and the world. *)
Definition self : M (Candidate * World) Candidate := λ s, (inr (fst s), s).
Definition world {A} (m : M World A) : M (Candidate * World) A :=
  zoom snd (λ w s, (fst s, w)) m.

Definition set_score_value (v : option Z) : M (Candidate * World) unit :=
  modify (λ '(c, w), (mkCandidate (ast c) (orig_fn c) (fn_index c) (rng_seed c)
                        (randomizer c) v (score_hash c) (_cache_source c), w)).
Definition set_score_hash (v : option string) : M (Candidate * World) unit :=
  modify (λ '(c, w), (mkCandidate (ast c) (orig_fn c) (fn_index c) (rng_seed c)
                        (randomizer c) (score_value c) v (_cache_source c), w)).
Definition set__cache_source (v : option string) : M (Candidate * World) unit :=
  modify (λ '(c, w), (mkCandidate (ast c) (orig_fn c) (fn_index c) (rng_seed c)
                        (randomizer c) (score_value c) (score_hash c) v, w)).
Definition set_randomizer (r : Rng) (c : Candidate) : Candidate :=
  mkCandidate (ast c) (orig_fn c) (fn_index c) (rng_seed c) r
    (score_value c) (score_hash c) (_cache_source c).

(** [self.randomizer.randomize(ast, fn_index)]: the engine works on its own
    state and on the store. *)
Definition self_randomizer_randomize (a : loc) (i : Z) : M (Candidate * World) unit :=
  zoom (λ '(c, w), (randomizer c, heap w))
       (λ '(r, h) '(c, w), (set_randomizer r c, set_heap h w))
       (Randomizer_randomize a i).

Definition randomize_ast : M (Candidate * World) unit :=
  let* c := self in
  let* _ := self_randomizer_randomize (ast c) (fn_index c) in
  set__cache_source None.

(** [ast_util.to_c(a)] *)
Definition ast_util_to_c (a : loc) : M World string :=
  let* _ := emit (EvRender a) in
  λ w, match read_tree (heap w) a with
       | Some t => (to_c t, w)
       | None => (inl AttributeError, w)
       end.

Definition get_source : M (Candidate * World) string :=
  let* c := self in
  match _cache_source c with
  | None =>
      let* src := world (ast_util_to_c (ast c)) in
      let* _ := set__cache_source (Some src) in
      ret src
  | Some src => ret src
  end.

Definition compile (compiler : Compiler) (show_errors : bool)
    : M (Candidate * World) (option string) :=
  let* source := get_source in
  let* _ := world (emit (EvCompile source show_errors)) in
  world (on_fs (compiler_compile compiler source show_errors)).

Definition score (scorer : Scorer) (o_file : option string)
    : M (Candidate * World) CandidateResult :=
  let* _ := set_score_value None in
  let* _ := set_score_hash None in
  let* _ :=
    try_finally
      (let* _ := world (emit (EvScore o_file)) in
       let* '(v, h) := world (on_fs (scorer_score scorer o_file)) in
       let* _ := set_score_value (Some v) in
       set_score_hash (Some h))
      (match o_file with
       | Some path => if decide (path = EmptyString) then ret tt else world (try_remove path)
       | None => ret tt
       end) in
  let* c := self in
  let* src := get_source in
  ret (mkCandidateResult (score_value c) (score_hash c) (Some src) Profiler_default).
End candidate.

(** ** A worker: the candidates it holds, and what it does with them *)

Section system.
Context `{Collaborators}.

Inductive op :=
  | Create (source fn_name : string) (rng_seed : Z)
  | Randomize (k : nat)
  | GetSource (k : nat)
  | Compile (k : nat) (compiler : Compiler) (show_errors : bool)
  | Score (k : nat) (scorer : Scorer) (o_file : option string).

Record System := mkSystem {
  world_of : World;
  cands : list Candidate
}.

Definition init_system : System := mkSystem init_world [].

(** A method call on the [k]-th candidate.  What the method did to the
    candidate and to the world stays done when it raises. *)
Definition call {A} (k : nat) (m : M (Candidate * World) A) (sys : System) : System :=
  match cands sys !! k with
  | Some c =>
      match m (c, world_of sys) with
      | (_, (c', w')) => mkSystem w' (<[k := c']> (cands sys))
      end
  | None => sys
  end.

Definition step (sys : System) (o : op) : System :=
  match o with
  | Create source fn_name rng_seed =>
      match from_source source fn_name rng_seed (world_of sys) with
      | (inr c, w') => mkSystem w' (cands sys ++ [c])
      | (inl _, w') => mkSystem w' (cands sys)
      end
  | Randomize k => call k randomize_ast sys
  | GetSource k => call k get_source sys
  | Compile k compiler show_errors => call k (compile compiler show_errors) sys
  | Score k scorer o_file => call k (score scorer o_file) sys
  end.

Inductive reachable : System → Prop :=
  | reachable_init : reachable init_system
  | reachable_step sys o : reachable sys → reachable (step sys o).

(** *** What the collaborators promise *)

(** The top-level declaration list of the tree rooted at [a]. *)
Definition decls (h : Heap) (a : loc) : option (list loc) :=
  o ← files h !! a; lists h !! ext o.

(** The declaration in the slot [i] of the tree rooted at [a]. *)
Definition target (h : Heap) (a : loc) (i : Z) : option loc :=
  items ← decls h a; n ← py_index (length items) i; items !! n.

(** The parser builds a new tree and leaves the objects that exist alone;
    [extract_fn] returns the function and the slot that holds it. *)
Definition normalizer_ok : Prop :=
  ∀ key w,
    match _cached_shared_ast_wrapped key w with
    | (r, w') =>
        files (heap w) `prefix_of` files (heap w') ∧
        lists (heap w) `prefix_of` lists (heap w') ∧
        nodes (heap w) `prefix_of` nodes (heap w') ∧
        match r with
        | inr (f, i, a) =>
            target (heap w') a i = Some f ∧
            ∃ items, decls (heap w') a = Some items ∧
              Forall (λ l, length (nodes (heap w)) ≤ l < length (nodes (heap w'))) items
        | inl _ => True
        end
    end.

(** The engine changes the target function in place, and nothing else
    that exists: "we never change the AST outside of the target function". *)
Definition engine_ok : Prop :=
  ∀ a i r h f,
    target h a i = Some f →
    match Randomizer_randomize a i (r, h) with
    | (_, (_, h')) =>
        files h `prefix_of` files h' ∧
        lists h `prefix_of` lists h' ∧
        length (nodes h) ≤ length (nodes h') ∧
        ∀ l, l ≠ f → l < length (nodes h) → nodes h' !! l = nodes h !! l
    end.

(** *** Properties of states *)

Definition is_render (ev : event) : bool :=
  match ev with EvRender _ => true | _ => false end.
Definition is_remove (ev : event) : bool :=
  match ev with EvRemove _ => true | _ => false end.
Definition is_parse (ev : event) : bool :=
  match ev with EvParse _ _ => true | _ => false end.

Definition count (p : event → bool) (l : list event) : nat :=
  length (filter (λ ev, p ev = true) l).

(** The score and its fingerprint are set together or not at all. *)
Definition paired (c : Candidate) : Prop :=
  (score_value c = None ∧ score_hash c = None) ∨
  (is_Some (score_value c) ∧ is_Some (score_hash c)).

(** *** The sharing discipline *)

(** Objects are only added to the store, and lists and file objects that
    exist keep their content. *)
Definition grows (h h' : Heap) : Prop :=
  files h `prefix_of` files h' ∧ lists h `prefix_of` lists h' ∧
  length (nodes h) ≤ length (nodes h').

(** The tree rooted at [a] is there, with all its declarations. *)
Definition closed (h : Heap) (a : loc) : Prop :=
  ∃ items, decls h a = Some items ∧ Forall (λ l, l < length (nodes h)) items.

(** The declaration in the slot [i] of the tree [a] is in no slot of the
    tree [a']. *)
Definition private (h : Heap) (a : loc) (i : Z) (a' : loc) : Prop :=
  ∀ f items, target h a i = Some f → decls h a' = Some items → f ∉ items.

(** The tree and the slot of each candidate. *)
Definition roots (cs : list Candidate) : list (loc * Z) :=
  (λ c, (ast c, fn_index c)) <$> cs.

Record shared_ok (h : Heap) (c : list ((string * string) * (loc * Z * loc)))
    (rs : list (loc * Z)) : Prop := mkSharedOk {
  (* the cache is a bounded dictionary *)
  ok_bound : length c ≤ 16;
  ok_keys : NoDup c.*1;
  (* a cached triple is a tree and the function in its slot *)
  ok_cached : ∀ k f i a, (k, (f, i, a)) ∈ c → closed h a ∧ target h a i = Some f;
  (* a candidate has a tree and a function in its slot *)
  ok_cands : ∀ a i, (a, i) ∈ rs → closed h a ∧ is_Some (target h a i);
  (* which is in no cached tree and in no tree of another candidate *)
  ok_private_cache : ∀ a i k f' i' a',
    (a, i) ∈ rs → (k, (f', i', a')) ∈ c → private h a i a';
  ok_private_cands : ∀ j j' a i a' i',
    j ≠ j' → rs !! j = Some (a, i) → rs !! j' = Some (a', i') → private h a i a'
}.

Definition inv (sys : System) : Prop :=
  shared_ok (heap (world_of sys)) (cache (world_of sys)) (roots (cands sys)).
End system.

(** ** A small instance of the collaborators

    A translation unit is a sequence of words; each word is the definition
    of the function of that name.  The engine appends a marker to the target
    function, and gives up afterwards when its state is negative. *)

Module toy.
Fixpoint render (n : node) : string :=
  match n with
  | Node kind children =>
      match children with
      | [] => kind
      | _ =>
          (fix go (l : list node) : string :=
             match l with
             | [] => EmptyString
             | c :: l' =>
                 match l' with
                 | [] => render c
                 | _ => render c +:+ " " +:+ go l'
                 end
             end) children
      end
  end.

Definition func_def (name : string) : node := Node "FuncDef" [Node name []].

Definition parse (source : string) : M Heap loc :=
  λ h, match String.words source with
       | [] => (inl (Raised "ParseError"), h)
       | ws =>
           (inr (length (files h)),
            mkHeap (files h ++ [mkFileAST (length (lists h))])
                   (lists h ++ [seq (length (nodes h)) (length ws)])
                   (nodes h ++ (func_def <$> ws)))
       end.

Fixpoint find_fn (h : Heap) (fn_name : string) (items : list loc) (n : nat)
    : option (loc * nat) :=
  match items with
  | [] => None
  | l :: rest =>
      match nodes h !! l with
      | Some (Node _ [Node name []]) =>
          if decide (name = fn_name) then Some (l, n) else find_fn h fn_name rest (S n)
      | _ => find_fn h fn_name rest (S n)
      end
  end.

Definition extract (a : loc) (fn_name : string) : M Heap (loc * Z) :=
  λ h, match decls h a with
       | Some items =>
           match find_fn h fn_name items 0 with
           | Some (l, n) => (inr (l, Z.of_nat n), h)
           | None => (inl (Raised "FunctionNotFound"), h)
           end
       | None => (inl AttributeError, h)
       end.

Definition mutate (n : node) : node :=
  match n with Node kind children => Node kind (children ++ [Node "/*m*/" []]) end.

Definition randomize (a : loc) (i : Z) : M (Z * Heap) unit :=
  λ '(r, h),
    match target h a i with
    | Some f =>
        match nodes h !! f with
        | Some n =>
            let h' := mkHeap (files h) (lists h) (<[f := mutate n]> (nodes h)) in
            if decide (r < 0)%Z
            then (inl (Raised "RandomizationFailure"), (r, h'))
            else (inr tt, ((r + 1)%Z, h'))
        | None => (inl AttributeError, (r, h))
        end
    | None => (inl AttributeError, (r, h))
    end.

#[export] Instance collaborators : Collaborators := {|
  Rng := Z;
  Randomizer := λ seed, seed;
  Randomizer_randomize := randomize;
  CParser_parse := parse;
  extract_fn := extract;
  normalize_ast := λ _ _, ret tt;
  to_c := λ n, inr (render n);
  Profiler := unit;
  Profiler_default := tt
|}.

(** The compiler writes one artifact, "a.o"; the scorer wants just that,
    and wants it to exist. *)
Definition cc : Compiler :=
  mkCompiler (λ source _ files,
    if decide (source = EmptyString) then (inr None, files)
    else (inr (Some "a.o"), "a.o" :: files)).

Definition scorer : Scorer :=
  mkScorer (λ o_file files,
    match o_file with
    | Some path =>
        if decide (path = "a.o" ∧ path ∈ files)
        then (inr (0%Z, "h:" +:+ path), files)
        else (inl (Raised "ScoringError"), files)
    | None => (inl (Raised "ScoringError"), files)
    end).

Definition run (ops : list op) : System := foldl step init_system ops.

(** Seventeen units of one function each: "a" to "q". *)
Definition units : list op :=
  (λ n, let name := String (Ascii.ascii_of_nat (97 + n)) EmptyString in Create name name 0)
    <$> seq 0 17.
End toy.

(** * Theorems *)

Ltac unfold_monad :=
  unfold self, world, on_heap, on_fs, emit,
    set_score_value, set_score_hash, set__cache_source in *;
  unfold bind, ret, raise, get, modify, zoom, try_finally in *.

Section methods.
Context `{Collaborators}.

(** ** [randomize_ast] *)

(** C5, as the code has it.  When the engine returns, the cached rendering
    is dropped.  When the engine raises, the exception is the caller's, the
    store and the engine are left as the engine left them, and the cached
    rendering stays as it was: the assignment that drops it is not
    reached. *)
Theorem randomize_ast_outcome (c : Candidate) (w : World) :
  match Randomizer_randomize (ast c) (fn_index c) (randomizer c, heap w) with
  | (inr _, (r', h')) =>
      randomize_ast (c, w) =
        (inr tt, (mkCandidate (ast c) (orig_fn c) (fn_index c) (rng_seed c) r'
                    (score_value c) (score_hash c) None, set_heap h' w))
  | (inl e, (r', h')) =>
      randomize_ast (c, w) =
        (inl e, (mkCandidate (ast c) (orig_fn c) (fn_index c) (rng_seed c) r'
                   (score_value c) (score_hash c) (_cache_source c), set_heap h' w))
  end.
Proof.
  unfold randomize_ast, self_randomizer_randomize. unfold_monad. simpl.
  destruct (Randomizer_randomize _ _ _) as [[e|[]] [r' h']]; reflexivity.
Qed.

(** ** [get_source] *)

Lemma count_app p l l' : count p (l ++ l') = count p l + count p l'.
Proof. unfold count. by rewrite filter_app, length_app. Qed.

Lemma get_source_cached c w src :
  _cache_source c = Some src → get_source (c, w) = (inr src, (c, w)).
Proof. intros Hc. unfold get_source. unfold_monad. simpl. rewrite Hc. reflexivity. Qed.

Lemma get_source_uncached c w :
  _cache_source c = None →
  get_source (c, w) =
    let w' := mkWorld (heap w) (cache w) (fs w) (log w ++ [EvRender (ast c)]) in
    match ast_util_to_c (ast c) w with
    | (inr src, _) =>
        (inr src, (mkCandidate (ast c) (orig_fn c) (fn_index c) (rng_seed c)
                     (randomizer c) (score_value c) (score_hash c) (Some src), w'))
    | (inl e, _) => (inl e, (c, w'))
    end.
Proof.
  intros Hc. unfold get_source, ast_util_to_c. unfold_monad. simpl. rewrite Hc. simpl.
  destruct (read_tree (heap w) (ast c)) as [t|]; [|reflexivity].
  destruct (to_c t); reflexivity.
Qed.

(** C7.  A call of [get_source] that returns leaves the text in the
    candidate; the next call returns that text from there, changes nothing
    and does not reach the renderer, which has so been called at most once
    over the two calls. *)
Theorem get_source_twice c w src c1 w1 :
  get_source (c, w) = (inr src, (c1, w1)) →
  get_source (c1, w1) = (inr src, (c1, w1)) ∧
  count is_render (log w1) ≤ count is_render (log w) + 1.
Proof.
  intros Hg. destruct (_cache_source c) as [s0|] eqn:Hc.
  - rewrite (get_source_cached _ _ _ Hc) in Hg. simplify_eq.
    split; [by apply get_source_cached | lia].
  - rewrite (get_source_uncached _ _ Hc) in Hg. simpl in Hg.
    destruct (ast_util_to_c (ast c) w) as [[e|s'] w']; simplify_eq.
    split; [by apply get_source_cached |].
    simpl. rewrite count_app. unfold count at 2. simpl. lia.
Qed.

(** [get_source] writes the rendering cache and the log, and nothing else. *)
Lemma get_source_frame c w r c' w' :
  get_source (c, w) = (r, (c', w')) →
  heap w' = heap w ∧ cache w' = cache w ∧ fs w' = fs w ∧
  (log w' = log w ∨ log w' = log w ++ [EvRender (ast c)]) ∧
  ast c' = ast c ∧ orig_fn c' = orig_fn c ∧ fn_index c' = fn_index c ∧
  rng_seed c' = rng_seed c ∧ randomizer c' = randomizer c ∧
  score_value c' = score_value c ∧ score_hash c' = score_hash c.
Proof.
  intros Hg. destruct (_cache_source c) as [s0|] eqn:Hc.
  - rewrite (get_source_cached _ _ _ Hc) in Hg. simplify_eq. tauto.
  - rewrite (get_source_uncached _ _ Hc) in Hg. simpl in Hg.
    destruct (ast_util_to_c (ast c) w) as [[e|s'] w'']; simplify_eq; simpl; tauto.
Qed.

(** ** [score] *)

(** The world after the [try ... finally] of [score]: the scorer was
    called and left the files [fs1]; the clean-up ran. *)
Lemma score_outcome scorer o_file c w :
  let c0 v h := mkCandidate (ast c) (orig_fn c) (fn_index c) (rng_seed c)
                  (randomizer c) v h (_cache_source c) in
  match scorer_score scorer o_file (fs w) with
  | (sr, fs1) =>
      let w1 :=
        match o_file with
        | Some path =>
            if decide (path = EmptyString)
            then mkWorld (heap w) (cache w) fs1 (log w ++ [EvScore o_file])
            else mkWorld (heap w) (cache w) (filter (λ q, q ≠ path) fs1)
                   ((log w ++ [EvScore o_file]) ++ [EvRemove path])
        | None => mkWorld (heap w) (cache w) fs1 (log w ++ [EvScore o_file])
        end in
      match sr with
      | inl e => score scorer o_file (c, w) = (inl e, (c0 None None, w1))
      | inr (v, h) =>
          score scorer o_file (c, w) =
            match get_source (c0 (Some v) (Some h), w1) with
            | (inr src, s2) =>
                (inr (mkCandidateResult (Some v) (Some h) (Some src) Profiler_default), s2)
            | (inl e, s2) => (inl e, s2)
            end
      end
  end.
Proof.
  unfold score, try_remove. unfold_monad. simpl.
  destruct (scorer_score scorer o_file (fs w)) as [[e|[v h]] fs1]; simpl.
  - destruct o_file as [path|]; [case_decide|]; reflexivity.
  - destruct o_file as [path|]; [case_decide|]; simpl;
      destruct (get_source _) as [[e|src] [c2 w2]] eqn:Hg;
      try reflexivity;
      apply get_source_frame in Hg; simpl in Hg;
      destruct Hg as (_ & _ & _ & _ & _ & _ & _ & _ & _ & -> & ->); reflexivity.
Qed.

(** C2.  With a present artifact path, [score] calls [try_remove] on it
    right after the scorer, once, whatever the scorer did; the path is then
    gone from the file system.  A failure of the scorer is still the
    caller's. *)
Theorem score_removes_artifact scorer path c w :
  path ≠ EmptyString →
  match scorer_score scorer (Some path) (fs w), score scorer (Some path) (c, w) with
  | (sr, fs1), (r, (c', w')) =>
      (path ∉ fs w') ∧
      fs w' = filter (λ q, q ≠ path) fs1 ∧
      (∃ tl, log w' = log w ++ [EvScore (Some path); EvRemove path] ++ tl ∧
             count is_remove tl = 0) ∧
      (∀ e, sr = inl e → r = inl e)
  end.
Proof.
  intros Hp. pose proof (score_outcome scorer (Some path) c w) as Ho. simpl in Ho.
  destruct (scorer_score scorer (Some path) (fs w)) as [sr fs1].
  destruct (decide (path = EmptyString)) as [|_]; [done|].
  assert (path ∉ filter (λ q, q ≠ path) fs1) as Hgone.
  { rewrite list_elem_of_filter. tauto. }
  destruct sr as [e|[v h]].
  - rewrite Ho. simpl. repeat split; [done| |congruence].
    exists []. rewrite <- !app_assoc. done.
  - rewrite Ho. clear Ho.
    destruct (get_source _) as [rs [c2 w2]] eqn:Hg.
    apply get_source_frame in Hg. simpl in Hg.
    destruct Hg as (_ & _ & Hfs & Hlog & _).
    assert (∃ tl, log w2 = log w ++ [EvScore (Some path); EvRemove path] ++ tl ∧
                  count is_remove tl = 0) as Htl.
    { destruct Hlog as [-> | ->].
      - exists []. rewrite <- !app_assoc. done.
      - eexists [_]. rewrite <- !app_assoc. done. }
    destruct rs as [e|src]; simpl; rewrite Hfs; repeat split; done.
Qed.

(** C10.  [score] calls the scorer on whatever [o_file] is.  Every call of
    [try_remove] it makes is on [o_file], a path that is not empty; with no
    path, or the empty one, nothing is removed, and the file system is as
    the scorer left it. *)
Theorem score_absent_artifact scorer o_file c w :
  match scorer_score scorer o_file (fs w), score scorer o_file (c, w) with
  | (sr, fs1), (r, (c', w')) =>
      ∃ tl, log w' = log w ++ EvScore o_file :: tl ∧
        (∀ p, EvRemove p ∈ tl → o_file = Some p ∧ p ≠ EmptyString) ∧
        (o_file = None ∨ o_file = Some EmptyString → count is_remove tl = 0 ∧ fs w' = fs1) ∧
        (∀ e, sr = inl e → r = inl e)
  end.
Proof.
  pose proof (score_outcome scorer o_file c w) as Ho. simpl in Ho.
  destruct (scorer_score scorer o_file (fs w)) as [sr fs1].
  set (w1 := match o_file with Some _ => _ | None => _ end) in Ho.
  assert (fs w1 = (match o_file with
                   | Some p => if decide (p = EmptyString) then fs1 else filter (λ q, q ≠ p) fs1
                   | None => fs1 end) ∧
          ∃ tl, log w1 = log w ++ EvScore o_file :: tl ∧
            (∀ p, EvRemove p ∈ tl → o_file = Some p ∧ p ≠ EmptyString) ∧
            (o_file = None ∨ o_file = Some EmptyString → tl = []))
    as (Hfs1 & tl & Hlog1 & Hrm & Habs).
  { subst w1. destruct o_file as [p|]; [destruct (decide (p = EmptyString))|]; simpl.
    - split; [done|]. exists []. split_and!; [done| |done]. by intros ? ?%elem_of_nil.
    - split; [done|]. exists [EvRemove p]. rewrite <- app_assoc. split_and!; [done| |].
      + intros q Hq%list_elem_of_singleton. by simplify_eq.
      + intros [|]; simplify_eq.
    - split; [done|]. exists []. split_and!; [done| |done]. by intros ? ?%elem_of_nil. }
  assert (o_file = None ∨ o_file = Some EmptyString → fs w1 = fs1) as Hfsabs.
  { rewrite Hfs1. intros [->| ->]; [done|]. by rewrite decide_True. }
  destruct sr as [e|[v h]].
  - rewrite Ho. exists tl. split_and!; [done|done| |congruence].
    intros Ha. rewrite (Habs Ha). split; [done|]. by apply Hfsabs.
  - rewrite Ho. clear Ho.
    destruct (get_source _) as [rs [c2 w2]] eqn:Hg.
    apply get_source_frame in Hg. simpl in Hg.
    destruct Hg as (_ & _ & Hfs & Hlog & _).
    assert (∃ tl', log w2 = log w ++ EvScore o_file :: tl' ∧
              (∀ p, EvRemove p ∈ tl' → o_file = Some p ∧ p ≠ EmptyString) ∧
              (o_file = None ∨ o_file = Some EmptyString → count is_remove tl' = 0))
      as (tl' & ? & ? & ?).
    { destruct Hlog as [-> | ->].
      - exists tl. split_and!; [done|done|]. intros Ha. by rewrite (Habs Ha).
      - exists (tl ++ [EvRender (ast c)]). rewrite Hlog1, <- app_assoc. split_and!; [done| |].
        + intros p [?|Hin%list_elem_of_singleton]%elem_of_app; [by apply Hrm|done].
        + intros Ha. by rewrite (Habs Ha). }
    destruct rs as [e|src]; exists tl'; (split_and!; [done|done| |done]);
      intros Ha; (split; [by auto|]); rewrite Hfs; by apply Hfsabs.
Qed.

(** [compile] is [get_source] and then the compiler, which sees the file
    system only. *)
Lemma compile_frame compiler show_errors c w r c' w' :
  compile compiler show_errors (c, w) = (r, (c', w')) →
  heap w' = heap w ∧ cache w' = cache w ∧
  ast c' = ast c ∧ fn_index c' = fn_index c ∧
  score_value c' = score_value c ∧ score_hash c' = score_hash c.
Proof.
  unfold compile. unfold bind at 1.
  destruct (get_source (c, w)) as [[e|src] [c1 w1]] eqn:Hg;
    apply get_source_frame in Hg; destruct Hg as (? & ? & _ & _ & ? & _ & ? & _ & _ & ? & ?).
  - intros; simplify_eq. done.
  - unfold_monad. simpl.
    destruct (compiler_compile _ _ _ _) as [r2 fs2]. intros; simplify_eq. done.
Qed.

Lemma score_frame scorer o_file c w r c' w' :
  score scorer o_file (c, w) = (r, (c', w')) →
  heap w' = heap w ∧ cache w' = cache w ∧
  ast c' = ast c ∧ fn_index c' = fn_index c ∧ paired c'.
Proof.
  pose proof (score_outcome scorer o_file c w) as Ho. simpl in Ho.
  destruct (scorer_score scorer o_file (fs w)) as [sr fs1].
  set (w1 := match o_file with Some _ => _ | None => _ end) in Ho.
  assert (heap w1 = heap w ∧ cache w1 = cache w) as [Hh Hc].
  { subst w1. destruct o_file as [p|]; [destruct (decide (p = EmptyString))|]; done. }
  destruct sr as [e|[v h]]; rewrite Ho; clear Ho.
  - intros; simplify_eq. split_and!; [done..|]. by left.
  - destruct (get_source _) as [rs [c2 w2]] eqn:Hg.
    apply get_source_frame in Hg. simpl in Hg.
    destruct Hg as (? & ? & _ & _ & ? & _ & ? & _ & _ & Hv & Hh').
    assert (paired c2) by (right; rewrite Hv, Hh'; eauto).
    destruct rs; intros; simplify_eq; split_and!; congruence.
Qed.

Lemma randomize_ast_frame c w r c' w' :
  randomize_ast (c, w) = (r, (c', w')) →
  cache w' = cache w ∧ fs w' = fs w ∧ log w' = log w ∧
  ast c' = ast c ∧ fn_index c' = fn_index c ∧
  score_value c' = score_value c ∧ score_hash c' = score_hash c ∧
  ∃ r0 rng', Randomizer_randomize (ast c) (fn_index c) (randomizer c, heap w)
             = (r0, (rng', heap w')).
Proof.
  unfold randomize_ast, self_randomizer_randomize. unfold_monad. simpl.
  destruct (Randomizer_randomize _ _ _) as [[e|u] [r' h']];
    intros; simplify_eq; simpl; split_and!; eauto.
Qed.
End methods.

(** ** The shared-tree cache *)

Section queue.
Context {K V : Type} `{EqDecision K}.
Implicit Types (c : list (K * V)) (key : K).

Lemma cache_get_Some_elem key c v : cache_get key c = Some v → (key, v) ∈ c.
Proof.
  induction c as [|[k v'] c IH]; csimpl; [done|].
  case_decide; intros; simplify_eq; [left | right; auto].
Qed.

Lemma cache_get_None key c : cache_get key c = None ↔ key ∉ c.*1.
Proof.
  induction c as [|[k v'] c IH]; csimpl.
  - split; [intros _ ?%elem_of_nil; done | done].
  - rewrite not_elem_of_cons. case_decide; simplify_eq.
    + split; [done | intros [? _]; done].
    + rewrite IH. split; [intros; split; [congruence | done] | intros [_ ?]; done].
Qed.

Lemma cache_get_is_Some key c : is_Some (cache_get key c) ↔ key ∈ c.*1.
Proof.
  destruct (cache_get key c) eqn:Hg.
  - split; [intros _ | eauto].
    apply cache_get_Some_elem in Hg. apply list_elem_of_fmap. by exists (key, v).
  - apply cache_get_None in Hg. split; [intros [? ?]; done | done].
Qed.

Lemma unlink_length key c v :
  cache_get key c = Some v → S (length (unlink key c)) = length c.
Proof.
  induction c as [|[k v'] c IH]; csimpl; [done|].
  case_decide; [done|]. intros Hg. csimpl. by rewrite IH.
Qed.

Lemma elem_of_unlink key c x : x ∈ unlink key c → x ∈ c.
Proof.
  induction c as [|[k v'] c IH]; csimpl; [done|].
  case_decide; [by right|]. intros [->|?]%elem_of_cons; [left | right; auto].
Qed.

Lemma filter_absent (key : K) (l : list K) : key ∉ l → filter (λ k, k ≠ key) l = l.
Proof.
  induction l as [|k l IH]; [done|].
  intros [Hk Hl]%not_elem_of_cons.
  rewrite filter_cons_True by done. by rewrite IH.
Qed.

Lemma unlink_keys key c :
  NoDup c.*1 → (unlink key c).*1 = filter (λ k, k ≠ key) c.*1.
Proof.
  induction c as [|[k v'] c IH]; csimpl; [done|].
  intros [Hk Hnd]%NoDup_cons. case_decide; simplify_eq.
  - rewrite filter_cons_False by naive_solver.
    by rewrite filter_absent.
  - rewrite filter_cons_True by done. csimpl. by rewrite IH.
Qed.

Lemma youngest_all (n : nat) (l : list K) : length l ≤ n → youngest n l = l.
Proof. intros Hl. unfold youngest. by replace (length l - n) with 0 by lia. Qed.

(** One use of a key, on the queue and in the words of the specification. *)
Lemma hit_refines_spec n key c v :
  NoDup c.*1 → length c ≤ n → cache_get key c = Some v →
  (unlink key c ++ [(key, v)]).*1 = lru_keys_spec n key c.*1.
Proof.
  intros Hnd Hlen Hg. unfold lru_keys_spec, touch.
  rewrite fmap_app, unlink_keys by done. csimpl.
  rewrite youngest_all; [done|].
  rewrite <- unlink_keys by done.
  rewrite length_app, length_fmap. csimpl. apply unlink_length in Hg. lia.
Qed.

Lemma miss_refines_spec n key c v :
  0 < n → length c ≤ n → cache_get key c = None →
  ((if decide (n ≤ length c) then tail c else c) ++ [(key, v)]).*1
  = lru_keys_spec n key c.*1.
Proof.
  intros Hn Hlen Hg%cache_get_None. unfold lru_keys_spec, touch.
  rewrite filter_absent by done. case_decide.
  - unfold youngest. rewrite length_app, length_fmap. csimpl.
    replace (length c + 1 - n) with 1 by lia.
    destruct c as [|x c]; csimpl in *; [lia|]. by rewrite fmap_app.
  - rewrite youngest_all; [by rewrite fmap_app|].
    rewrite length_app, length_fmap. csimpl. lia.
Qed.

Lemma NoDup_touch key (l : list K) : NoDup l → NoDup (touch key l).
Proof.
  intros Hnd. unfold touch. apply NoDup_app. split_and!.
  - by apply NoDup_filter.
  - intros k [? ?]%list_elem_of_filter ->%list_elem_of_singleton. done.
  - apply NoDup_singleton.
Qed.

Lemma NoDup_lru_keys_spec n key (l : list K) : NoDup l → NoDup (lru_keys_spec n key l).
Proof.
  intros Hnd%(NoDup_touch key). unfold lru_keys_spec, youngest.
  rewrite <- (take_drop (length (touch key l) - n)) in Hnd.
  by apply NoDup_app in Hnd as (_ & _ & ?).
Qed.

Lemma length_lru_keys_spec n key (l : list K) : length (lru_keys_spec n key l) ≤ n.
Proof. unfold lru_keys_spec, youngest. rewrite length_drop. lia. Qed.
End queue.

Section cache.
Context `{Collaborators}.

Lemma wrapped_frame key w r w' :
  _cached_shared_ast_wrapped key w = (r, w') →
  cache w' = cache w ∧ fs w' = fs w ∧ log w' = log w ++ [EvParse key.1 key.2].
Proof.
  destruct key as [source fn_name]. unfold _cached_shared_ast_wrapped. unfold_monad. simpl.
  destruct (CParser_parse _ _) as [[e|a] h1]; [intros; by simplify_eq|].
  destruct (extract_fn _ _ _) as [[e|[f i]] h2]; [intros; by simplify_eq|].
  destruct (normalize_ast _ _ _) as [[e|u] h3]; intros; by simplify_eq.
Qed.

Lemma cached_shared_ast_hit source fn_name w t :
  cache_get (source, fn_name) (cache w) = Some t →
  _cached_shared_ast source fn_name w =
    (inr t, set_cache (unlink (source, fn_name) (cache w) ++ [((source, fn_name), t)]) w).
Proof.
  intros Hget. unfold _cached_shared_ast, lru_cache_wrapper. unfold_monad.
  rewrite Hget. reflexivity.
Qed.

Lemma cached_shared_ast_miss source fn_name w :
  cache_get (source, fn_name) (cache w) = None →
  _cached_shared_ast source fn_name w =
    match _cached_shared_ast_wrapped (source, fn_name) w with
    | (inl e, w') => (inl e, w')
    | (inr t, w') =>
        (inr t, set_cache ((if decide (16 ≤ length (cache w)) then tail (cache w)
                            else cache w) ++ [((source, fn_name), t)]) w')
    end.
Proof.
  intros Hget. unfold _cached_shared_ast, lru_cache_wrapper. unfold bind at 1, get at 1.
  rewrite Hget. unfold bind at 1.
  destruct (_cached_shared_ast_wrapped _ w) as [[e|t] w'] eqn:Hw; [done|].
  apply wrapped_frame in Hw as (Hc & _ & _).
  unfold_monad. rewrite Hc, Hget. by case_decide.
Qed.

Lemma cached_shared_ast_inl source fn_name w e w' :
  _cached_shared_ast source fn_name w = (inl e, w') →
  cache_get (source, fn_name) (cache w) = None ∧
  _cached_shared_ast_wrapped (source, fn_name) w = (inl e, w').
Proof.
  destruct (cache_get (source, fn_name) (cache w)) as [t|] eqn:Hget.
  - by rewrite (cached_shared_ast_hit _ _ _ _ Hget).
  - rewrite (cached_shared_ast_miss _ _ _ Hget).
    destruct (_cached_shared_ast_wrapped _ w) as [[e'|t] w1]; intros; by simplify_eq.
Qed.

(** C9.  When the cached lookup raises, the exception is the one of the
    parser or of [extract_fn], and the cache is as it was, with no entry
    for the pair.  The next lookup of the pair is a miss again: it calls
    the parser again and its outcome is the parser's get.  An entry of the
    cache is either an older entry or the triple that this call returned. *)
Theorem failure_not_memoized source fn_name w e w' :
  _cached_shared_ast source fn_name w = (inl e, w') →
  _cached_shared_ast_wrapped (source, fn_name) w = (inl e, w') ∧
  cache w' = cache w ∧
  cache_get (source, fn_name) (cache w') = None ∧
  match _cached_shared_ast_wrapped (source, fn_name) w',
        _cached_shared_ast source fn_name w' with
  | (r0, w0), (r2, w2) =>
      r2 = r0 ∧ heap w2 = heap w0 ∧
      log w2 = log w' ++ [EvParse source fn_name] ∧
      ∀ k t, (k, t) ∈ cache w2 → (k, t) ∈ cache w ∨ (k = (source, fn_name) ∧ r2 = inr t)
  end.
Proof.
  intros [Hget Hw]%cached_shared_ast_inl.
  pose proof (wrapped_frame _ _ _ _ Hw) as (Hc & _ & _).
  split_and!; [done | done | by rewrite Hc |].
  rewrite cached_shared_ast_miss by (by rewrite Hc).
  destruct (_cached_shared_ast_wrapped _ w') as [r0 w0] eqn:Hw0.
  apply wrapped_frame in Hw0 as (Hc0 & _ & Hl0). simpl in Hl0.
  destruct r0 as [e0|t0]; simpl.
  - split_and!; [done..|]. intros k t. rewrite Hc0, Hc. auto.
  - split_and!; [done..|]. intros k t. rewrite Hc.
    intros [Hin | Heq%list_elem_of_singleton]%elem_of_app; [left | right; by simplify_eq].
    case_decide; [|done]. destruct (cache w); [done | by right].
Qed.
End cache.

(** ** Copy-on-write construction *)

Section construction.
Context `{Collaborators}.

Lemma snoc_lookup {A} (l : list A) (x : A) : (l ++ [x]) !! length l = Some x.
Proof. by apply list_lookup_middle. Qed.

Lemma snoc_insert {A} (l : list A) (x y : A) : <[length l := y]> (l ++ [x]) = l ++ [y].
Proof. rewrite insert_app_r_alt by lia. by rewrite Nat.sub_diag. Qed.

(** What [from_source] does with the triple that the cache gave it. *)
Lemma from_source_inv source fn_name seed w r w' :
  from_source source fn_name seed w = (r, w') →
  ∃ r1 w1,
    _cached_shared_ast source fn_name w = (r1, w1) ∧
    cache w' = cache w1 ∧ fs w' = fs w1 ∧ log w' = log w1 ∧
    grows (heap w1) (heap w') ∧
    ∀ c, r = inr c →
      ∃ fo i a o items n k,
        r1 = inr (fo, i, a) ∧
        files (heap w1) !! a = Some o ∧
        lists (heap w1) !! ext o = Some items ∧
        nodes (heap w1) !! fo = Some n ∧
        py_index (length items) i = Some k ∧
        c = mkCandidate (length (files (heap w1))) fo i seed (Randomizer seed)
              None None None ∧
        heap w' = mkHeap
          (files (heap w1) ++ [mkFileAST (length (lists (heap w1)))])
          (lists (heap w1) ++ [<[k := length (nodes (heap w1))]> items])
          (nodes (heap w1) ++ [n]).
Proof.
  unfold from_source. unfold bind at 1.
  destruct (_cached_shared_ast source fn_name w) as [[e|[[fo i] a]] w1] eqn:Hc.
  { intros; simplify_eq. exists (inl e), w'. split_and!; try done. }
  destruct w1 as [[fl ls ns] c1 fs1 lg1]. simpl.
  unfold copy_copy_file, getattr_ext, copy_copy_list, setattr_ext, copy_deepcopy,
    list_setitem. unfold_monad. simpl.
  intros Hr. exists (inr (fo, i, a)). eexists. split; [reflexivity|]. simpl.
  destruct (fl !! a) as [o|] eqn:Ho; simpl in Hr.
  2:{ simplify_eq. simpl. split_and!; try done. }
  rewrite snoc_lookup in Hr. simpl in Hr.
  destruct (ls !! ext o) as [items|] eqn:Hitems; simpl in Hr.
  2:{ simplify_eq. simpl. split_and!; try done.
      split_and!; simpl; [by apply prefix_app_r|done|done]. }
  rewrite snoc_lookup in Hr. simpl in Hr. rewrite snoc_insert in Hr.
  destruct (ns !! fo) as [n|] eqn:Hn; simpl in Hr.
  2:{ simplify_eq. simpl. split_and!; try done.
      split_and!; simpl; [by apply prefix_app_r|by apply prefix_app_r|done]. }
  rewrite !snoc_lookup in Hr. simpl in Hr. rewrite snoc_lookup in Hr.
  destruct (py_index (length items) i) as [k|] eqn:Hk; simpl in Hr.
  2:{ simplify_eq. simpl. split_and!; try done.
      split_and!; simpl; [by apply prefix_app_r|by apply prefix_app_r|].
      rewrite length_app. lia. }
  rewrite snoc_insert in Hr. simplify_eq. simpl. split_and!; try done.
  - split_and!; simpl; [by apply prefix_app_r|by apply prefix_app_r|].
    rewrite length_app. lia.
  - intros c ?; simplify_eq. by exists fo, i, a, o, items, n, k.
Qed.

Lemma py_index_lt len i k : py_index len i = Some k → k < len.
Proof. unfold py_index. repeat case_decide; intros; simplify_eq; lia. Qed.

(** The store after the three copies, as the candidate and as the cache
    see it. *)
Lemma copied_heap h a e items fo n i k :
  files h !! a = Some (mkFileAST e) → lists h !! e = Some items →
  nodes h !! fo = Some n → py_index (length items) i = Some k →
  let h' := mkHeap (files h ++ [mkFileAST (length (lists h))])
                   (lists h ++ [<[k := length (nodes h)]> items])
                   (nodes h ++ [n]) in
  decls h' (length (files h)) = Some (<[k := length (nodes h)]> items) ∧
  target h' (length (files h)) i = Some (length (nodes h)) ∧
  nodes h' !! length (nodes h) = Some n ∧
  decls h' a = Some items ∧
  nodes h' !! fo = Some n.
Proof.
  intros Ha He Hn Hk. simpl.
  assert (decls (mkHeap (files h ++ [mkFileAST (length (lists h))])
                        (lists h ++ [<[k := length (nodes h)]> items])
                        (nodes h ++ [n])) (length (files h))
          = Some (<[k := length (nodes h)]> items)) as Hd'.
  { unfold decls. simpl. rewrite snoc_lookup. simpl. by rewrite snoc_lookup. }
  split_and!.
  - done.
  - unfold target. rewrite Hd'. simpl. rewrite length_insert, Hk. simpl.
    apply list_lookup_insert_eq. by eapply py_index_lt.
  - apply snoc_lookup.
  - unfold decls. simpl. rewrite (lookup_app_l_Some _ _ _ _ Ha). simpl.
    by apply lookup_app_l_Some.
  - by apply lookup_app_l_Some.
Qed.

(** C4.  A successful [from_source] has fetched a triple from the cache;
    its candidate is a new file object, whose [ext] is a new list object
    with the elements of the cached list except in the slot of the
    function, which holds a new cell with the content of the cached
    function.  The cached file object, list and function are as they were,
    and an assignment to the slot of the new list, or to the new cell,
    leaves them so. *)
Theorem from_source_copy_on_write source fn_name seed w c w' :
  from_source source fn_name seed w = (inr c, w') →
  ∃ fo i a w1 e items n k,
    _cached_shared_ast source fn_name w = (inr (fo, i, a), w1) ∧
    files (heap w1) !! a = Some (mkFileAST e) ∧
    lists (heap w1) !! e = Some items ∧
    nodes (heap w1) !! fo = Some n ∧
    py_index (length items) i = Some k ∧
    let a' := length (files (heap w1)) in
    let e' := length (lists (heap w1)) in
    let f' := length (nodes (heap w1)) in
    c = mkCandidate a' fo i seed (Randomizer seed) None None None ∧
    w' = mkWorld (mkHeap (files (heap w1) ++ [mkFileAST e'])
                         (lists (heap w1) ++ [<[k := f']> items])
                         (nodes (heap w1) ++ [n]))
                 (cache w1) (fs w1) (log w1) ∧
    (* the candidate's tree *)
    a' ≠ a ∧ e' ≠ e ∧ f' ≠ fo ∧
    decls (heap w') a' = Some (<[k := f']> items) ∧
    target (heap w') a' i = Some f' ∧
    nodes (heap w') !! f' = Some n ∧
    (∀ j, j ≠ k → <[k := f']> items !! j = items !! j) ∧
    (* the cached tree *)
    decls (heap w') a = Some items ∧
    nodes (heap w') !! fo = Some n ∧
    (∀ v h2, list_setitem e' i v (heap w') = (inr tt, h2) →
             decls h2 a = Some items ∧ nodes h2 !! fo = Some n) ∧
    (∀ n', <[f' := n']> (nodes (heap w')) !! fo = Some n).
Proof.
  intros Hfs. apply from_source_inv in Hfs
    as (r1 & w1 & Hc & Hcache & Hfs' & Hlog & Hg & Hr).
  destruct (Hr c eq_refl) as (fo & i & a & [e] & items & n & k & -> & Ha & He & Hn & Hk & -> & Hh).
  simpl in He.
  exists fo, i, a, w1, e, items, n, k. simpl.
  pose proof (lookup_lt_Some _ _ _ Ha) as Hla.
  pose proof (lookup_lt_Some _ _ _ He) as Hle.
  pose proof (lookup_lt_Some _ _ _ Hn) as Hln.
  pose proof (py_index_lt _ _ _ Hk) as Hkl.
  destruct (copied_heap _ _ _ _ _ _ _ _ Ha He Hn Hk) as (Hd' & Ht' & Hn' & Hd & Hno).
  rewrite <- Hh in Hd', Ht', Hn', Hd, Hno.
  split_and!; try done; try lia.
  - destruct w'; simpl in *; by subst.
  - intros j Hj. by apply list_lookup_insert_ne.
  - intros v h2. unfold list_setitem. rewrite Hh. simpl. rewrite snoc_lookup.
    rewrite length_insert, Hk. intros ?; simplify_eq. simpl.
    unfold decls. simpl. rewrite (lookup_app_l_Some _ _ _ _ Ha). simpl.
    rewrite snoc_insert. split; by apply lookup_app_l_Some.
  - intros n'. rewrite Hh. simpl. rewrite list_lookup_insert_ne by lia.
    by apply lookup_app_l_Some.
Qed.
End construction.

(** ** The sharing discipline is kept *)

Section sharing.
Context `{Collaborators}.
Implicit Types (h : Heap) (a f : loc) (i : Z).

Lemma grows_refl h : grows h h.
Proof. by split_and!. Qed.

Lemma decls_grows h h' a items :
  grows h h' → decls h a = Some items → decls h' a = Some items.
Proof.
  intros (Hf & Hl & _). unfold decls.
  destruct (files h !! a) as [o|] eqn:Ho; [|done]. csimpl.
  rewrite (prefix_lookup_Some _ _ _ _ Ho Hf). csimpl.
  intros Hi. by apply (prefix_lookup_Some _ _ _ _ Hi Hl).
Qed.

Lemma target_grows h h' a i f :
  grows h h' → target h a i = Some f → target h' a i = Some f.
Proof.
  intros Hg. unfold target.
  destruct (decls h a) as [items|] eqn:Hd; [|done].
  by rewrite (decls_grows _ _ _ _ Hg Hd).
Qed.

Lemma closed_grows h h' a : grows h h' → closed h a → closed h' a.
Proof.
  intros Hg (items & Hd & Hall). exists items. split; [by eapply decls_grows|].
  destruct Hg as (_ & _ & Hn). eapply Forall_impl; [done|]. csimpl. lia.
Qed.

Lemma target_closed_lt h a i f :
  closed h a → target h a i = Some f → f < length (nodes h).
Proof.
  intros (items & Hd & Hall). unfold target. rewrite Hd. csimpl.
  destruct (py_index _ _) as [k|]; [|done]. csimpl. intros Hk.
  rewrite Forall_forall in Hall. apply Hall. by eapply list_elem_of_lookup_2.
Qed.

Lemma private_grows h h' a i a' :
  grows h h' → is_Some (target h a i) → closed h a' →
  private h a i a' → private h' a i a'.
Proof.
  intros Hg [f0 Ht0] (items0 & Hd0 & _) Hp f items Ht Hd.
  rewrite (target_grows _ _ _ _ _ Hg Ht0) in Ht.
  rewrite (decls_grows _ _ _ _ Hg Hd0) in Hd. simplify_eq. by eapply Hp.
Qed.

Lemma shared_ok_grows h h' c rs :
  grows h h' → shared_ok h c rs → shared_ok h' c rs.
Proof.
  intros Hg [Hb Hk Hc Hr Hpc Hpr]. split; [done|done|..].
  - intros k f i a Hin. destruct (Hc _ _ _ _ Hin) as [? ?].
    split; [by eapply closed_grows | by eapply target_grows].
  - intros a i Hin. destruct (Hr _ _ Hin) as [? [f ?]].
    split; [by eapply closed_grows | exists f; by eapply target_grows].
  - intros a i k f' i' a' Hin Hin'.
    eapply private_grows; [done|by apply Hr|by eapply Hc|by eapply Hpc].
  - intros j j' a i a' i' Hne Hj Hj'.
    eapply private_grows; [done| | |by eapply Hpr].
    + eapply Hr. by eapply list_elem_of_lookup_2.
    + eapply (Hr a' i'). by eapply list_elem_of_lookup_2.
Qed.

Lemma read_tree_decls h a :
  read_tree h a =
    items ← decls h a; ds ← mapM (λ l, nodes h !! l) items; Some (Node "FileAST" ds).
Proof. unfold read_tree, decls. by destruct (files h !! a). Qed.

Lemma mapM_agree {A B} (g g' : A → option B) (l : list A) :
  (∀ x, x ∈ l → g x = g' x) → mapM g l = mapM g' l.
Proof.
  induction l as [|x l IH]; [done|]. intros Hl. csimpl.
  rewrite (Hl x) by left. destruct (g' x) as [y|]; [|done].
  change (mapM g l ≫= (λ k, mret (y :: k)) = mapM g' l ≫= (λ k, mret (y :: k))).
  rewrite IH; [done|]. intros z Hz. apply Hl. by right.
Qed.

(** A reader of a tree sees its file object, its list and the cells of
    its declarations. *)
Lemma read_tree_agree h h' a :
  closed h a → grows h h' →
  (∀ items l, decls h a = Some items → l ∈ items → nodes h' !! l = nodes h !! l) →
  read_tree h' a = read_tree h a.
Proof.
  intros (items & Hd & _) Hg Hn. rewrite !read_tree_decls.
  rewrite Hd, (decls_grows _ _ _ _ Hg Hd). csimpl.
  rewrite (mapM_agree _ (λ l, nodes h !! l)); [done|]. intros l Hl. by eapply Hn.
Qed.

Lemma get_source_result c w :
  (get_source (c, w)).1 =
    match _cache_source c with
    | Some src => inr src
    | None =>
        match read_tree (heap w) (ast c) with
        | Some t => to_c t
        | None => inl AttributeError
        end
    end.
Proof.
  destruct (_cache_source c) as [src|] eqn:Hc.
  - by rewrite (get_source_cached _ _ _ Hc).
  - rewrite (get_source_uncached _ _ Hc). unfold ast_util_to_c. unfold_monad. csimpl.
    destruct (read_tree _ _) as [t|]; [|done]. by destruct (to_c t).
Qed.

Lemma elem_of_tail {A} (l : list A) x : x ∈ tail l → x ∈ l.
Proof. destruct l; [done | by right]. Qed.

Lemma elem_of_insert_inv {A} (l : list A) k x y : y ∈ <[k := x]> l → y = x ∨ y ∈ l.
Proof.
  intros [j Hj]%list_elem_of_lookup_1.
  apply list_lookup_insert_Some in Hj as [(-> & -> & _) | (_ & Hj)]; [by left|].
  right. by eapply list_elem_of_lookup_2.
Qed.

(** A hit moves an entry of the cache. *)
Lemma shared_ok_hit h c rs key t :
  cache_get key c = Some t →
  shared_ok h c rs → shared_ok h (unlink key c ++ [(key, t)]) rs.
Proof.
  intros Hget [Hb Hk Hc Hr Hpc Hpr].
  assert (∀ x, x ∈ unlink key c ++ [(key, t)] → x ∈ c) as Hsub.
  { intros x [?| ->%list_elem_of_singleton]%elem_of_app;
      [by eapply elem_of_unlink | by apply cache_get_Some_elem]. }
  split; [| |eauto..].
  - rewrite <- (length_fmap fst), (hit_refines_spec 16) by done.
    apply length_lru_keys_spec.
  - rewrite (hit_refines_spec 16) by done. by apply NoDup_lru_keys_spec.
Qed.

(** A miss adds the tree that the parser built. *)
Lemma shared_ok_miss h h' c rs key f i a items :
  cache_get key c = None →
  files h `prefix_of` files h' → lists h `prefix_of` lists h' →
  nodes h `prefix_of` nodes h' →
  target h' a i = Some f → decls h' a = Some items →
  Forall (λ l, length (nodes h) ≤ l < length (nodes h')) items →
  shared_ok h c rs →
  shared_ok h' ((if decide (16 ≤ length c) then tail c else c) ++ [(key, (f, i, a))]) rs.
Proof.
  intros Hget Hpf Hpl Hpn Ht Hd Hfresh Hok.
  assert (grows h h') as Hg by (split_and!; [done..|by apply prefix_length]).
  pose proof (shared_ok_grows _ _ _ _ Hg Hok) as [Hb Hk Hc Hr Hpc Hpr].
  assert (∀ x, x ∈ (if decide (16 ≤ length c) then tail c else c) → x ∈ c) as Hsub.
  { intros x. case_decide; [apply elem_of_tail | done]. }
  split.
  - rewrite <- (length_fmap fst), (miss_refines_spec 16) by (done || lia).
    apply length_lru_keys_spec.
  - rewrite (miss_refines_spec 16) by (done || lia). by apply NoDup_lru_keys_spec.
  - intros k f' i' a' [Hin|Heq%list_elem_of_singleton]%elem_of_app; [by eauto|].
    simplify_eq. split; [|done]. exists items. split; [done|].
    eapply Forall_impl; [done|]. csimpl. lia.
  - done.
  - intros a0 i0 k f' i' a' Hin [Hin'|Heq%list_elem_of_singleton]%elem_of_app; [by eauto|].
    simplify_eq. intros f0 items0 Ht0 Hd0. simplify_eq.
    destruct Hok as [_ _ _ Hr0 _ _]. destruct (Hr0 _ _ Hin) as [Hcl [f1 Ht1]].
    rewrite (target_grows _ _ _ _ _ Hg Ht1) in Ht0. simplify_eq.
    pose proof (target_closed_lt _ _ _ _ Hcl Ht1) as Hlt.
    intros Hin0. rewrite Forall_forall in Hfresh. apply Hfresh in Hin0. lia.
  - done.
Qed.

Section contracts.
Hypothesis Hnorm : normalizer_ok.
Hypothesis Heng : engine_ok.

(** The cached lookup keeps the discipline, and what it returns is in
    the cache. *)
Lemma cached_shared_ast_ok source fn_name w r w1 rs :
  shared_ok (heap w) (cache w) rs →
  _cached_shared_ast source fn_name w = (r, w1) →
  shared_ok (heap w1) (cache w1) rs ∧
  ∀ t, r = inr t → ((source, fn_name), t) ∈ cache w1.
Proof.
  intros Hok. destruct (cache_get (source, fn_name) (cache w)) as [t|] eqn:Hget.
  - rewrite (cached_shared_ast_hit _ _ _ _ Hget). intros; simplify_eq. csimpl. split.
    + by apply shared_ok_hit.
    + intros t' ?; simplify_eq. apply elem_of_app. right. by apply list_elem_of_singleton.
  - rewrite (cached_shared_ast_miss _ _ _ Hget).
    pose proof (Hnorm (source, fn_name) w) as Hn.
    destruct (_cached_shared_ast_wrapped _ w) as [[e|[[f i] a]] w0] eqn:Hw;
      pose proof (wrapped_frame _ _ _ _ Hw) as (Hc & _ & _);
      destruct Hn as (Hpf & Hpl & Hpn & Hres); intros; simplify_eq; csimpl.
    + split; [|done]. rewrite Hc. eapply shared_ok_grows; [|done].
      split_and!; [done..|by apply prefix_length].
    + destruct Hres as (Ht & items & Hd & Hfresh). split.
      * by eapply shared_ok_miss.
      * intros t' ?; simplify_eq. apply elem_of_app. right. by apply list_elem_of_singleton.
Qed.

(** The copy of the container and of the function makes a candidate
    whose function is its own. *)
Lemma shared_ok_new h c rs key fo i a o items n k :
  shared_ok h c rs →
  (key, (fo, i, a)) ∈ c →
  files h !! a = Some o → lists h !! ext o = Some items →
  py_index (length items) i = Some k →
  shared_ok (mkHeap (files h ++ [mkFileAST (length (lists h))])
                    (lists h ++ [<[k := length (nodes h)]> items])
                    (nodes h ++ [n]))
            c (rs ++ [(length (files h), i)]).
Proof.
  intros Hok Hin Ha Hitems Hk.
  set (h' := mkHeap _ _ _).
  assert (grows h h') as Hg.
  { split_and!; csimpl; [by apply prefix_app_r..|rewrite length_app; lia]. }
  assert (decls h a = Some items) as Hda by (unfold decls; by rewrite Ha).
  assert (decls h' (length (files h)) = Some (<[k := length (nodes h)]> items)) as Hd'.
  { unfold decls, h'. csimpl. rewrite snoc_lookup. csimpl. by rewrite snoc_lookup. }
  assert (target h' (length (files h)) i = Some (length (nodes h))) as Ht'.
  { unfold target. rewrite Hd'. csimpl. rewrite length_insert, Hk. csimpl.
    apply list_lookup_insert_eq. by eapply py_index_lt. }
  pose proof Hok as [_ _ Hc0 Hr0 Hpc0 _].
  assert (∀ a', closed h a' → private h' (length (files h)) i a') as Hnew.
  { intros a' (its & Hd & Hall) f its' Ht Hdi. simplify_eq.
    rewrite (decls_grows _ _ _ _ Hg Hd) in Hdi. simplify_eq.
    intros Hin'. rewrite Forall_forall in Hall. apply Hall in Hin'. lia. }
  pose proof (shared_ok_grows _ _ _ _ Hg Hok) as [Hb Hkeys Hc Hr Hpc Hpr].
  split; [done|done|done|..].
  - intros a0 i0 [Hin0|Heq%list_elem_of_singleton]%elem_of_app; [by eauto|].
    simplify_eq. split; [|by eauto].
    exists (<[k := length (nodes h)]> items). split; [done|].
    destruct (Hc0 _ _ _ _ Hin) as [(its & Hd & Hall) _]. simplify_eq.
    unfold h'. csimpl. rewrite length_app. csimpl. apply Forall_insert; [|lia].
    eapply Forall_impl; [done|]. csimpl. lia.
  - intros a0 i0 k0 f0 i0' a0' [Hin0|Heq%list_elem_of_singleton]%elem_of_app Hin';
      [by eauto|].
    simplify_eq. apply Hnew. by eapply Hc0.
  - intros j j' a0 i0 a1 i1 Hne Hj Hj'.
    apply lookup_snoc_Some in Hj as [[Hlt Hj]|[-> Hj]];
      apply lookup_snoc_Some in Hj' as [[Hlt' Hj']|[-> Hj']]; simplify_eq.
    + by eapply Hpr.
    + (* an older candidate against the new tree *)
      intros f its Ht Hdi. simplify_eq.
      assert ((a0, i0) ∈ rs) as Hin0 by (by eapply list_elem_of_lookup_2).
      destruct (Hr0 _ _ Hin0) as [Hcl [f1 Ht1]].
      rewrite (target_grows _ _ _ _ _ Hg Ht1) in Ht. simplify_eq.
      pose proof (target_closed_lt _ _ _ _ Hcl Ht1) as Hlt1.
      intros [->|Hin']%elem_of_insert_inv; [lia|].
      by eapply (Hpc0 a0 i0 key fo i1 a Hin0 Hin f items).
    + apply Hnew. eapply (Hr0 a1 i1). by eapply list_elem_of_lookup_2.
Qed.

Lemma roots_insert cs k c c' :
  cs !! k = Some c → ast c' = ast c → fn_index c' = fn_index c →
  roots (<[k := c']> cs) = roots cs.
Proof.
  intros Hk Ha Hi. unfold roots. rewrite list_fmap_insert.
  apply list_insert_id. rewrite list_lookup_fmap, Hk. csimpl. congruence.
Qed.

Lemma elem_of_roots cs k c : cs !! k = Some c → (ast c, fn_index c) ∈ roots cs.
Proof.
  intros Hk. unfold roots. apply list_elem_of_fmap. exists c. split; [done|].
  by eapply list_elem_of_lookup_2.
Qed.

Lemma inv_call {A} k (m : M (Candidate * World) A) sys :
  inv sys →
  (∀ c r c' w',
      cands sys !! k = Some c → m (c, world_of sys) = (r, (c', w')) →
      grows (heap (world_of sys)) (heap w') ∧ cache w' = cache (world_of sys) ∧
      ast c' = ast c ∧ fn_index c' = fn_index c) →
  inv (call k m sys).
Proof.
  intros Hinv Hm. unfold call.
  destruct (cands sys !! k) as [c|] eqn:Hk; [|done].
  destruct (m (c, world_of sys)) as [r [c' w']] eqn:Hrun.
  destruct (Hm _ _ _ _ eq_refl Hrun) as (Hg & Hc & Ha & Hi).
  unfold inv. csimpl. rewrite Hc, (roots_insert _ _ _ _ Hk Ha Hi).
  by eapply shared_ok_grows.
Qed.

Lemma inv_init : inv init_system.
Proof.
  split; csimpl; [lia|constructor|..].
  - by intros ???? ?%elem_of_nil.
  - by intros ?? ?%elem_of_nil.
  - by intros ?????? ?%elem_of_nil.
  - by intros ????????.
Qed.

Lemma step_inv sys o : inv sys → inv (step sys o).
Proof.
  intros Hinv. destruct o as [source fn_name seed|k|k|k cc se|k sc o_file]; csimpl.
  - destruct (from_source _ _ _ _) as [r w'] eqn:Hfs.
    apply from_source_inv in Hfs as (r1 & w1 & Hc & Hcache & _ & _ & Hg & Hr).
    destruct (cached_shared_ast_ok _ _ _ _ _ _ Hinv Hc) as [Hok1 Hin1].
    destruct r as [e|c]; unfold inv; csimpl; rewrite Hcache.
    + by eapply shared_ok_grows.
    + destruct (Hr c eq_refl)
        as (fo & i & a & o & items & n & k & -> & Ha & He & Hn & Hk & -> & ->).
      unfold roots. rewrite fmap_app. csimpl.
      eapply shared_ok_new; [done|by apply Hin1|done..].
  - apply inv_call; [done|]. intros c r c' w' Hk Hrun.
    apply randomize_ast_frame in Hrun as (Hc & _ & _ & Ha & Hi & _ & _ & r0 & rng' & Hrun).
    destruct Hinv as [_ _ _ Hr _ _].
    destruct (Hr _ _ (elem_of_roots _ _ _ Hk)) as [_ [f Hf]].
    pose proof (Heng (ast c) (fn_index c) (randomizer c) (heap (world_of sys)) f Hf) as He.
    rewrite Hrun in He. destruct He as (? & ? & ? & _). by split_and!.
  - apply inv_call; [done|]. intros c r c' w' Hk Hrun.
    apply get_source_frame in Hrun as (-> & ? & _ & _ & ? & _ & ? & _).
    split_and!; [apply grows_refl|done..].
  - apply inv_call; [done|]. intros c r c' w' Hk Hrun.
    apply compile_frame in Hrun as (-> & ? & ? & ? & _).
    split_and!; [apply grows_refl|done..].
  - apply inv_call; [done|]. intros c r c' w' Hk Hrun.
    apply score_frame in Hrun as (-> & ? & ? & ? & _).
    split_and!; [apply grows_refl|done..].
Qed.

Lemma reachable_inv sys : reachable sys → inv sys.
Proof. induction 1; [apply inv_init | by apply step_inv]. Qed.

(** C1.  Two candidates of a worker, from the same pair or not: a
    [randomize_ast] of the one leaves the other as it is, leaves the
    tree of the other as a reader sees it, and so leaves what
    [get_source] returns for the other. *)
Theorem candidates_isolated sys k1 k2 c2 :
  reachable sys → k1 ≠ k2 → cands sys !! k2 = Some c2 →
  let sys' := step sys (Randomize k1) in
  cands sys' !! k2 = Some c2 ∧
  read_tree (heap (world_of sys')) (ast c2) = read_tree (heap (world_of sys)) (ast c2) ∧
  (get_source (c2, world_of sys')).1 = (get_source (c2, world_of sys)).1.
Proof.
  intros Hreach Hne Hk2. csimpl. unfold call.
  destruct (cands sys !! k1) as [c1|] eqn:Hk1; [|done].
  destruct (randomize_ast (c1, world_of sys)) as [r [c1' w']] eqn:Hrun. csimpl.
  rewrite list_lookup_insert_ne by done.
  assert (read_tree (heap w') (ast c2) = read_tree (heap (world_of sys)) (ast c2)) as Hread.
  { apply randomize_ast_frame in Hrun as (_ & _ & _ & _ & _ & _ & _ & r0 & rng' & Hrun).
    destruct (reachable_inv _ Hreach) as [_ _ _ Hr _ Hpr].
    destruct (Hr _ _ (elem_of_roots _ _ _ Hk1)) as [_ [f1 Hf1]].
    destruct (Hr _ _ (elem_of_roots _ _ _ Hk2)) as [Hcl2 _].
    pose proof (Heng (ast c1) (fn_index c1) (randomizer c1) _ f1 Hf1) as He.
    rewrite Hrun in He. destruct He as (Hpf & Hpl & Hlen & Hframe).
    eapply read_tree_agree; [done|by split_and!|].
    intros items l Hd Hl. destruct Hcl2 as (items' & Hd' & Hall). simplify_eq.
    apply Hframe.
    - intros ->. revert Hl.
      eapply (Hpr k1 k2 (ast c1) (fn_index c1) (ast c2) (fn_index c2)); try done;
        unfold roots; rewrite list_lookup_fmap; [by rewrite Hk1 | by rewrite Hk2].
    - rewrite Forall_forall in Hall. by apply Hall. }
  split_and!; [done|done|].
  rewrite !get_source_result. by rewrite Hread.
Qed.
End contracts.
End sharing.

(** ** The states of a worker *)

Section lifecycle.
Context `{Collaborators}.

Lemma call_Forall {A} (P : Candidate → Prop) k (m : M (Candidate * World) A) sys :
  (∀ c r c' w', m (c, world_of sys) = (r, (c', w')) → P c → P c') →
  Forall P (cands sys) → Forall P (cands (call k m sys)).
Proof.
  intros Hm Hall. unfold call. destruct (cands sys !! k) as [c|] eqn:Hk; [|done].
  destruct (m (c, world_of sys)) as [r [c' w']] eqn:Hrun. simpl.
  apply Forall_insert; [done|]. eapply Hm; [done|].
  rewrite Forall_forall in Hall. apply Hall. by eapply list_elem_of_lookup_2.
Qed.

Lemma call_cache {A} k (m : M (Candidate * World) A) sys :
  (∀ c r c' w', m (c, world_of sys) = (r, (c', w')) → cache w' = cache (world_of sys)) →
  cache (world_of (call k m sys)) = cache (world_of sys).
Proof.
  intros Hm. unfold call. destruct (cands sys !! k) as [c|] eqn:Hk; [|done].
  destruct (m (c, world_of sys)) as [r [c' w']] eqn:Hrun. simpl. by eapply Hm.
Qed.

Lemma paired_eq c c' :
  score_value c' = score_value c → score_hash c' = score_hash c → paired c → paired c'.
Proof. unfold paired. by intros -> ->. Qed.

Lemma reachable_paired sys : reachable sys → Forall paired (cands sys).
Proof.
  induction 1 as [|sys o _ IH]; [by constructor|].
  destruct o as [source fn_name seed|k|k|k cc se|k sc o_file]; simpl.
  - destruct (from_source _ _ _ _) as [[e|c] w'] eqn:Hfs; [done|]. simpl.
    apply from_source_inv in Hfs as (r1 & w1 & _ & _ & _ & _ & _ & Hr).
    destruct (Hr c eq_refl) as (fo & i & a & o & items & n & k & _ & _ & _ & _ & _ & -> & _).
    apply Forall_app. split; [done|]. constructor; [|done]. by left.
  - apply call_Forall; [|done]. intros c r c' w' Hrun.
    apply randomize_ast_frame in Hrun as (_ & _ & _ & _ & _ & ? & ? & _).
    by apply paired_eq.
  - apply call_Forall; [|done]. intros c r c' w' Hrun.
    apply get_source_frame in Hrun as (_ & _ & _ & _ & _ & _ & _ & _ & _ & ? & ?).
    by apply paired_eq.
  - apply call_Forall; [|done]. intros c r c' w' Hrun.
    apply compile_frame in Hrun as (_ & _ & _ & _ & ? & ?). by apply paired_eq.
  - apply call_Forall; [|done]. intros c r c' w' Hrun _.
    by apply score_frame in Hrun as (_ & _ & _ & _ & ?).
Qed.

(** C3.  In every state that a worker reaches, each candidate has its
    score and its fingerprint both unset or both set.  [score] leaves them
    unset when the scorer raises, and set to the scorer's pair when it
    returns, which is then the pair of the result; the pair that the
    candidate had before the call does not matter, for it is cleared
    first. *)
Theorem score_fields_paired :
  (∀ sys, reachable sys → Forall paired (cands sys)) ∧
  (∀ scorer o_file c w,
     match scorer_score scorer o_file (fs w), score scorer o_file (c, w) with
     | (sr, _), (r, (c', _)) =>
         paired c' ∧
         match sr with
         | inl e => r = inl e ∧ score_value c' = None ∧ score_hash c' = None
         | inr (v, h) =>
             score_value c' = Some v ∧ score_hash c' = Some h ∧
             ∀ res, r = inr res → score_ res = Some v ∧ hash res = Some h
         end
     end) ∧
  (∀ scorer o_file c w v h,
     score scorer o_file
       (mkCandidate (ast c) (orig_fn c) (fn_index c) (rng_seed c) (randomizer c)
          v h (_cache_source c), w)
     = score scorer o_file (c, w)).
Proof.
  split_and!.
  - apply reachable_paired.
  - intros scorer o_file c w.
    pose proof (score_outcome scorer o_file c w) as Ho. simpl in Ho.
    destruct (scorer_score scorer o_file (fs w)) as [sr fs1].
    destruct (score scorer o_file (c, w)) as [r [c' w']] eqn:Hs.
    split; [by apply score_frame in Hs as (_ & _ & _ & _ & ?)|].
    destruct sr as [e|[v h]].
    + by simplify_eq.
    + destruct (get_source _) as [rs [c2 w2]] eqn:Hg.
      apply get_source_frame in Hg. simpl in Hg.
      destruct Hg as (_ & _ & _ & _ & _ & _ & _ & _ & _ & Hv & Hh).
      destruct rs; simplify_eq; split_and!; try done. by intros; simplify_eq.
  - intros scorer o_file c w v h.
    pose proof (score_outcome scorer o_file c w) as Ho.
    pose proof (score_outcome scorer o_file
      (mkCandidate (ast c) (orig_fn c) (fn_index c) (rng_seed c) (randomizer c)
         v h (_cache_source c)) w) as Ho'.
    simpl in Ho, Ho'.
    destruct (scorer_score scorer o_file (fs w)) as [[e|[v' h']] fs1]; congruence.
Qed.

(** *** The cache of a worker *)

Lemma cache_get_snoc {V} (key : string * string) (c : list (string * string * V)) t :
  key ∉ c.*1 → cache_get key (c ++ [(key, t)]) = Some t.
Proof.
  induction c as [|[k v] c IH]; csimpl.
  - intros _. by rewrite decide_True.
  - intros [? ?]%not_elem_of_cons. rewrite decide_False by done. by apply IH.
Qed.

Lemma cached_shared_ast_cache source fn_name w r w1 :
  length (cache w) ≤ 16 → NoDup (cache w).*1 →
  _cached_shared_ast source fn_name w = (r, w1) →
  match r with
  | inr t =>
      (cache w1).*1 = lru_keys_spec 16 (source, fn_name) (cache w).*1 ∧
      cache_get (source, fn_name) (cache w1) = Some t
  | inl _ => cache w1 = cache w
  end.
Proof.
  intros Hb Hnd. destruct (cache_get (source, fn_name) (cache w)) as [t|] eqn:Hget.
  - rewrite (cached_shared_ast_hit _ _ _ _ Hget). intros; simplify_eq. csimpl. split.
    + by apply hit_refines_spec.
    + apply cache_get_snoc. rewrite unlink_keys by done.
      rewrite list_elem_of_filter. tauto.
  - rewrite (cached_shared_ast_miss _ _ _ Hget).
    destruct (_cached_shared_ast_wrapped _ w) as [[e|t] w0] eqn:Hw;
      apply wrapped_frame in Hw as (Hc & _ & _); intros; simplify_eq; csimpl; [done|].
    split.
    + apply miss_refines_spec; [lia|done..].
    + apply cache_get_snoc. apply cache_get_None in Hget.
      case_decide; [|done]. intros Hin. apply Hget.
      destruct (cache w); [done|]. by right.
Qed.

Lemma reachable_cache sys :
  reachable sys →
  length (cache (world_of sys)) ≤ 16 ∧ NoDup (cache (world_of sys)).*1.
Proof.
  induction 1 as [|sys o _ [IHb IHk]]; [simpl; split; [lia|constructor]|].
  destruct o as [source fn_name seed|k|k|k cc se|k sc o_file]; simpl.
  - assert (∀ r w', from_source source fn_name seed (world_of sys) = (r, w') →
              length (cache w') ≤ 16 ∧ NoDup (cache w').*1) as Hfs.
    { intros r w' Hfs.
      apply from_source_inv in Hfs as (r1 & w1 & Hc & -> & _).
      pose proof (cached_shared_ast_cache _ _ _ _ _ IHb IHk Hc) as Hc1.
      destruct r1 as [e|t]; [by rewrite Hc1|]. destruct Hc1 as [Hkeys _].
      rewrite <- (length_fmap fst), Hkeys.
      split; [apply length_lru_keys_spec | by apply NoDup_lru_keys_spec]. }
    destruct (from_source _ _ _ _) as [[e|c] w'] eqn:Heq; simpl; by eapply Hfs.
  - rewrite call_cache; [done|]. intros c r c' w' Hrun.
    by apply randomize_ast_frame in Hrun as (? & _).
  - rewrite call_cache; [done|]. intros c r c' w' Hrun.
    by apply get_source_frame in Hrun as (_ & ? & _).
  - rewrite call_cache; [done|]. intros c r c' w' Hrun.
    by apply compile_frame in Hrun as (_ & ? & _).
  - rewrite call_cache; [done|]. intros c r c' w' Hrun.
    by apply score_frame in Hrun as (_ & ? & _).
Qed.

(** Two candidates made one after the other from the same pair have the
    same cached function and slot; their lists hold the same declarations,
    except in that slot, where each has a cell of its own. *)
Lemma siblings_share sys source fn_name seed1 seed2 c1 w1 c2 w2 :
  reachable sys →
  from_source source fn_name seed1 (world_of sys) = (inr c1, w1) →
  from_source source fn_name seed2 w1 = (inr c2, w2) →
  orig_fn c2 = orig_fn c1 ∧ fn_index c2 = fn_index c1 ∧
  ∃ items k f1 f2,
    decls (heap w2) (ast c1) = Some (<[k := f1]> items) ∧
    decls (heap w2) (ast c2) = Some (<[k := f2]> items) ∧
    target (heap w2) (ast c1) (fn_index c1) = Some f1 ∧
    target (heap w2) (ast c2) (fn_index c2) = Some f2 ∧
    f1 ≠ f2.
Proof.
  intros Hreach Hfs1 Hfs2. destruct (reachable_cache _ Hreach) as [Hb Hk].
  apply from_source_inv in Hfs1 as (r1 & w0 & Hc1 & Hcache1 & _ & _ & _ & Hr1).
  destruct (Hr1 c1 eq_refl)
    as (fo & i & a & [e] & items & n & k & -> & Ha & He & Hn & Hki & -> & Hh1).
  simpl in He.
  pose proof (cached_shared_ast_cache _ _ _ _ _ Hb Hk Hc1) as [_ Hget].
  rewrite <- Hcache1 in Hget.
  apply from_source_inv in Hfs2 as (r2 & w1' & Hc2 & _ & _ & _ & Hg2 & Hr2).
  rewrite (cached_shared_ast_hit _ _ _ _ Hget) in Hc2. simplify_eq.
  destruct (Hr2 c2 eq_refl)
    as (fo' & i' & a' & [e'] & items' & n' & k' & Heq & Ha' & He' & Hn' & Hki' & -> & Hh2).
  simplify_eq. simpl in *.
  destruct (copied_heap _ _ _ _ _ _ _ _ Ha He Hn Hki) as (Hd1 & Ht1 & _ & Hd & _).
  rewrite <- Hh1 in Hd1, Ht1, Hd.
  assert (items' = items) as ->.
  { revert Hd. unfold decls. rewrite Ha'. csimpl. rewrite He'. intros ?; by simplify_eq. }
  simplify_eq.
  destruct (copied_heap _ _ _ _ _ _ _ _ Ha' He' Hn' Hki) as (Hd2 & Ht2 & _).
  rewrite <- Hh2 in Hd2, Ht2.
  split_and!; [done..|].
  exists items, k, (length (nodes (heap w0))), (length (nodes (heap w1))).
  split_and!; [by eapply decls_grows | done | by eapply target_grows | done |].
  rewrite Hh1. simpl. rewrite length_app. simpl. lia.
Qed.

(** C6.  In a state that a worker reaches the cache has at most 16
    entries, with distinct keys.  A lookup of a pair that has an entry, by
    equality of the two texts, returns the entry's triple and moves the
    entry to the young end; the parser is not called and the store is
    untouched.  A lookup of a pair that has no entry calls the parser; when
    that raises the cache is as it was, and when that returns the triple is
    stored at the young end, after the oldest entry was dropped when there
    were 16.  In the words of the specification: after a lookup that
    returns, the keys of the cache are the 16 most recently used ones, in
    the order of their last use. *)
Theorem shared_ast_cache_lru sys source fn_name :
  reachable sys →
  let w := world_of sys in
  let key := (source, fn_name) in
  length (cache w) ≤ 16 ∧ NoDup (cache w).*1 ∧
  match cache_get key (cache w) with
  | Some t =>
      (key, t) ∈ cache w ∧
      _cached_shared_ast source fn_name w =
        (inr t, mkWorld (heap w) (unlink key (cache w) ++ [(key, t)]) (fs w) (log w))
  | None =>
      (key ∉ (cache w).*1) ∧
      match _cached_shared_ast_wrapped key w, _cached_shared_ast source fn_name w with
      | (r0, w0), (r, w') =>
          r = r0 ∧ heap w' = heap w0 ∧ fs w' = fs w ∧
          log w' = log w ++ [EvParse source fn_name] ∧
          cache w' =
            match r0 with
            | inl _ => cache w
            | inr t =>
                (if decide (16 ≤ length (cache w)) then tail (cache w) else cache w)
                ++ [(key, t)]
            end
      end
  end ∧
  match _cached_shared_ast source fn_name w with
  | (inr t, w') =>
      (cache w').*1 = lru_keys_spec 16 key (cache w).*1 ∧
      cache_get key (cache w') = Some t ∧
      length (cache w') ≤ 16
  | (inl _, w') => cache w' = cache w
  end.
Proof.
  intros Hreach. cbv zeta. destruct (reachable_cache _ Hreach) as [Hb Hk].
  split_and!; [done|done|..].
  - destruct (cache_get _ _) as [t|] eqn:Hget.
    + split; [by apply cache_get_Some_elem | by apply cached_shared_ast_hit].
    + split; [by apply cache_get_None|].
      rewrite (cached_shared_ast_miss _ _ _ Hget).
      destruct (_cached_shared_ast_wrapped _ _) as [[e|t] w0] eqn:Hw;
        apply wrapped_frame in Hw as (? & ? & ?); simpl; by split_and!.
  - destruct (_cached_shared_ast _ _ _) as [[e|t] w'] eqn:Hc;
      pose proof (cached_shared_ast_cache _ _ _ _ _ Hb Hk Hc) as Hc1; [done|].
    destruct Hc1 as [Hkeys ?]. split_and!; [done..|].
    rewrite <- (length_fmap fst), Hkeys. apply length_lru_keys_spec.
Qed.
End lifecycle.

(** ** A new candidate renders as the cached tree *)

Section roundtrip.
Context `{Collaborators}.
Hypothesis Hnorm : normalizer_ok.
Hypothesis Heng : engine_ok.

Lemma mapM_insert_same {A B} (g : A → option B) (l : list A) k x y :
  l !! k = Some y → g x = g y → mapM g (<[k := x]> l) = mapM g l.
Proof.
  revert k. induction l as [|z l IH]; intros k Hk Hg; [done|].
  destruct k as [|k]; csimpl in *.
  - simplify_eq. by rewrite Hg.
  - destruct (g z) as [b|]; [|done].
    change (mapM g (<[k := x]> l) ≫= (λ r, mret (b :: r)) = mapM g l ≫= (λ r, mret (b :: r))).
    by rewrite IH.
Qed.

Lemma ast_util_to_c_result a w :
  (ast_util_to_c a w).1 =
    match read_tree (heap w) a with Some t => to_c t | None => inl AttributeError end.
Proof. unfold ast_util_to_c. unfold_monad. simpl. by destruct (read_tree _ _). Qed.

(** C8, as the code has it.  The source of a candidate that was just made
    is the rendering of the cached tree, the whole translation unit with
    the cached function in its slot: the candidate's tree reads as the
    cached tree does, the copied function cell having the content of the
    cached one. *)
Theorem fresh_candidate_source sys source fn_name seed c w' :
  reachable sys →
  from_source source fn_name seed (world_of sys) = (inr c, w') →
  ∃ fo i a f',
    cache_get (source, fn_name) (cache w') = Some (fo, i, a) ∧
    orig_fn c = fo ∧ fn_index c = i ∧
    target (heap w') a i = Some fo ∧
    target (heap w') (ast c) i = Some f' ∧
    nodes (heap w') !! f' = nodes (heap w') !! fo ∧
    read_tree (heap w') (ast c) = read_tree (heap w') a ∧
    (get_source (c, w')).1 = (ast_util_to_c a w').1.
Proof.
  intros Hreach Hfs.
  pose proof (reachable_inv Hnorm Heng _ Hreach) as Hinv.
  apply from_source_inv in Hfs as (r1 & w1 & Hc & Hcache & _ & _ & Hg & Hr).
  destruct (Hr c eq_refl)
    as (fo & i & a & [e] & items & n & k & -> & Ha & He & Hn & Hk & -> & Hh).
  simpl in He.
  destruct (copied_heap _ _ _ _ _ _ _ _ Ha He Hn Hk) as (Hd' & Ht' & Hn' & Hd & Hno).
  rewrite <- Hh in Hd', Ht', Hn', Hd, Hno.
  destruct (cached_shared_ast_ok Hnorm _ _ _ _ _ _ Hinv Hc) as [Hok1 Hin1].
  destruct Hok1 as [_ _ Hcached _ _ _].
  destruct (Hcached _ _ _ _ (Hin1 _ eq_refl)) as [_ Ht1].
  destruct Hinv as [Hb Hkeys _ _ _ _].
  pose proof (cached_shared_ast_cache _ _ _ _ _ Hb Hkeys Hc) as [_ Hget].
  assert (read_tree (heap w') (length (files (heap w1))) = read_tree (heap w') a) as Hread.
  { rewrite !read_tree_decls, Hd', Hd. simpl.
    erewrite mapM_insert_same; [done| |by rewrite Hn', Hno].
    revert Ht1. unfold target, decls. rewrite Ha. simpl. rewrite He. simpl.
    by rewrite Hk. }
  exists fo, i, a, (length (nodes (heap w1))). simpl.
  split_and!; try done.
  - by rewrite Hcache.
  - by eapply target_grows.
  - by rewrite Hn', Hno.
  - rewrite get_source_result, ast_util_to_c_result. simpl. by rewrite Hread.
Qed.
End roundtrip.

(** ** The small instance keeps the promises *)

Section toy_contracts.
Import toy.

Lemma find_fn_Some h fn_name items n0 l n :
  find_fn h fn_name items n0 = Some (l, n) →
  ∃ j, n = n0 + j ∧ items !! j = Some l.
Proof.
  revert n0. induction items as [|x items IH]; intros n0; simpl; [done|].
  assert (find_fn h fn_name items (S n0) = Some (l, n) →
          ∃ j, n = n0 + j ∧ (x :: items) !! j = Some l) as Hrest.
  { intros (j & -> & Hj)%IH. exists (S j). split; [lia|done]. }
  destruct (nodes h !! x) as [[kind [|[name [|]] [|]]]|]; try done.
  case_decide; [|done]. intros; simplify_eq. exists 0. split; [lia|done].
Qed.

Lemma toy_normalizer_ok : normalizer_ok.
Proof.
  intros [source fn_name] [[fl ls ns] c fs0 lg].
  unfold _cached_shared_ast_wrapped. unfold_monad. simpl. unfold parse. simpl.
  destruct (String.words source) as [|w0 ws] eqn:Hws; simpl; [by split_and!|].
  set (items := length ns :: seq (S (length ns)) (length ws)).
  unfold extract, decls. simpl. rewrite snoc_lookup. simpl. rewrite snoc_lookup.
  fold items.
  destruct (find_fn _ fn_name items 0) as [[l n]|] eqn:Hfind; simpl.
  2:{ split_and!; try done; by apply prefix_app_r. }
  split_and!; [by apply prefix_app_r..| |].
  - apply find_fn_Some in Hfind as (j & -> & Hj). simpl in *.
    unfold target, decls. simpl. rewrite snoc_lookup. simpl. rewrite snoc_lookup. simpl.
    pose proof (lookup_lt_Some _ _ _ Hj) as Hlt.
    change (length items) with (S (length (seq (S (length ns)) (length ws)))) in Hlt.
    unfold py_index. rewrite decide_True by lia. simpl. by rewrite Nat2Z.id.
  - exists items. split.
    + unfold decls. simpl. rewrite snoc_lookup. simpl. by rewrite snoc_lookup.
    + apply Forall_forall. intros x Hx.
      change items with (seq (length ns) (S (length ws))) in Hx.
      apply elem_of_seq in Hx. rewrite length_app. simpl.
      change (list_fmap string node func_def ws) with (func_def <$> ws).
      rewrite length_fmap. lia.
Qed.

Lemma toy_engine_ok : engine_ok.
Proof.
  intros a i r h f Hf. simpl. unfold randomize. rewrite Hf.
  destruct (nodes h !! f) as [n|]; [|by split_and!].
  case_decide; simpl; (split_and!; [done|done|by rewrite length_insert|]);
    intros l Hne _; by apply list_lookup_insert_ne.
Qed.

Lemma reachable_foldl `{Collaborators} ops sys :
  reachable sys → reachable (foldl step sys ops).
Proof.
  revert sys. induction ops as [|o ops IH]; intros sys Hsys; [done|].
  simpl. apply IH. by constructor.
Qed.

Lemma toy_reachable ops : reachable (run ops).
Proof. apply reachable_foldl. constructor. Qed.
End toy_contracts.

(** ** The theorems on a run of the small instance *)

Section examples.
Import toy.

(** Two candidates of the unit "g f", for its function "f". *)
Lemma candidates_isolated_witness :
  let sys := run [Create "g f" "f" 42; Create "g f" "f" 7] in
  ∃ c2,
    0 ≠ 1 ∧ cands sys !! 1 = Some c2 ∧
    (get_source (c2, world_of (step sys (Randomize 0)))).1 = inr "g f" ∧
    (get_source (c2, world_of (step sys (Randomize 0)))).1
    = (get_source (c2, world_of sys)).1.
Proof.
  eexists. split; [lia|]. split; [reflexivity|]. split; [reflexivity|].
  apply (candidates_isolated toy_normalizer_ok toy_engine_ok
           (run [Create "g f" "f" 42; Create "g f" "f" 7]) 0 1);
    [apply toy_reachable | lia | reflexivity].
Defined.

(** The compiler has written "a.o"; scoring it removes it. *)
Lemma score_removes_artifact_witness :
  let sys := run [Create "g f" "f" 42; Compile 0 cc false] in
  ∃ c,
    cands sys !! 0 = Some c ∧ "a.o" ≠ EmptyString ∧ "a.o" ∈ fs (world_of sys) ∧
    "a.o" ∉ fs (score scorer (Some "a.o") (c, world_of sys)).2.2.
Proof.
  eexists. split; [reflexivity|]. split; [discriminate|]. split; [vm_compute; left|].
  match goal with |- _ ∉ fs (score _ _ (?c, ?w)).2.2 =>
    generalize (score_removes_artifact scorer "a.o" c w ltac:(discriminate)) end.
  destruct (scorer_score _ _ _) as [sr fs1].
  destruct (score _ _ _) as [r [c' w']]. intros [Hgone _]. exact Hgone.
Defined.

(** The same when the scorer raises: "b.o" is not what it wants. *)
Example score_failure_removes_artifact :
  let sys := run [Create "g f" "f" 42; Compile 0 cc false] in
  ∃ c, cands sys !! 0 = Some c ∧
    match score scorer (Some "b.o") (c, mkWorld (heap (world_of sys)) (cache (world_of sys))
                                         ["b.o"; "c.o"] (log (world_of sys))) with
    | (r, (c', w')) =>
        r = inl (Raised "ScoringError") ∧ fs w' = ["c.o"] ∧
        score_value c' = None ∧ score_hash c' = None
    end.
Proof. eexists. split; [reflexivity|]. vm_compute. done. Qed.

Lemma score_fields_paired_witness :
  Forall paired
    (cands (run [Create "g f" "f" 42; Compile 0 cc false; Score 0 scorer (Some "a.o");
                 Randomize 0; Score 0 scorer None])).
Proof. apply (proj1 score_fields_paired). apply toy_reachable. Defined.

Lemma from_source_copy_on_write_witness :
  ∃ c w',
    from_source "g f" "f" 42 init_world = (inr c, w') ∧
    ∃ a items k f',
      decls (heap w') a = Some items ∧
      decls (heap w') (ast c) = Some (<[k := f']> items) ∧
      f' ≠ orig_fn c.
Proof.
  assert (∀ c w', from_source "g f" "f" 42 init_world = (inr c, w') →
            ∃ a items k f',
              decls (heap w') a = Some items ∧
              decls (heap w') (ast c) = Some (<[k := f']> items) ∧
              f' ≠ orig_fn c) as Hgen.
  { intros c w' Hfs.
    destruct (from_source_copy_on_write _ _ _ _ _ _ Hfs)
      as (fo & i & a & w1 & e & items & n & k & _ & _ & _ & _ & _ & Hrest).
    cbv zeta in Hrest.
    destruct Hrest as (-> & _ & _ & _ & Hne & Hd' & _ & _ & _ & Hd & _).
    exists a, items, k, (length (nodes (heap w1))). by split_and!. }
  eexists _, _. split; [vm_compute; reflexivity|].
  apply Hgen. vm_compute. reflexivity.
Defined.

Lemma shared_ast_cache_lru_witness :
  let sys := run [Create "g f" "f" 42; Create "h" "h" 1] in
  length (cache (world_of sys)) ≤ 16 ∧
  ∃ t w', _cached_shared_ast "g f" "f" (world_of sys) = (inr t, w') ∧
          (cache w').*1 = [("h", "h"); ("g f", "f")].
Proof.
  pose proof (shared_ast_cache_lru (run [Create "g f" "f" 42; Create "h" "h" 1])
                "g f" "f" (toy_reachable _)) as (Hb & _ & _ & Hspec).
  split; [exact Hb|].
  eexists _, _. split; [vm_compute; reflexivity|]. vm_compute. reflexivity.
Defined.

(** After the seventeenth unit the first is gone; when the first was used
    again in between, the second is gone instead. *)
Example lru_evicts_oldest :
  (cache (world_of (run units))).*1.*1 =
    ["b"; "c"; "d"; "e"; "f"; "g"; "h"; "i"; "j"; "k"; "l"; "m"; "n"; "o"; "p"; "q"] ∧
  (cache (world_of (run (take 16 units ++ [Create "a" "a" 1] ++ drop 16 units)))).*1.*1 =
    ["c"; "d"; "e"; "f"; "g"; "h"; "i"; "j"; "k"; "l"; "m"; "n"; "o"; "p"; "a"; "q"].
Proof. split; vm_compute; reflexivity. Qed.

Lemma get_source_twice_witness :
  let sys := run [Create "g f" "f" 42; Randomize 0] in
  ∃ c src c1 w1,
    cands sys !! 0 = Some c ∧
    get_source (c, world_of sys) = (inr src, (c1, w1)) ∧
    get_source (c1, w1) = (inr src, (c1, w1)) ∧
    count is_render (log w1) ≤ count is_render (log (world_of sys)) + 1.
Proof.
  eexists _, _, _, _. split; [reflexivity|].
  match goal with
  | |- get_source (?c, ?w) = (inr ?s, (?c1, ?w1)) ∧ _ =>
      assert (get_source (c, w) = (inr s, (c1, w1))) as Hg by (vm_compute; reflexivity);
      split; [exact Hg | exact (get_source_twice c w s c1 w1 Hg)]
  end.
Defined.

Lemma fresh_candidate_source_witness :
  let sys := run [Create "g f" "f" 42; Randomize 0] in
  ∃ c w',
    from_source "g f" "f" 7 (world_of sys) = (inr c, w') ∧
    (get_source (c, w')).1 = inr "g f" ∧
    ∃ a, cache_get ("g f", "f") (cache w') = Some (orig_fn c, fn_index c, a) ∧
         (get_source (c, w')).1 = (ast_util_to_c a w').1.
Proof.
  set (sys := run [Create "g f" "f" 42; Randomize 0]). cbv zeta.
  assert (∀ c w', from_source "g f" "f" 7 (world_of sys) = (inr c, w') →
            ∃ a, cache_get ("g f", "f") (cache w') = Some (orig_fn c, fn_index c, a) ∧
                 (get_source (c, w')).1 = (ast_util_to_c a w').1) as Hgen.
  { intros c w' Hfs.
    destruct (fresh_candidate_source toy_normalizer_ok toy_engine_ok sys
                "g f" "f" 7 c w' (toy_reachable _) Hfs)
      as (fo & i & a & f' & Hget & <- & <- & _ & _ & _ & _ & Hsrc).
    by exists a. }
  eexists _, _. split; [vm_compute; reflexivity|].
  split; [vm_compute; reflexivity|].
  apply Hgen. vm_compute. reflexivity.
Defined.

Lemma failure_not_memoized_witness :
  ∃ e w',
    _cached_shared_ast "g f" "h" init_world = (inl e, w') ∧
    cache w' = [] ∧ log w' = [EvParse "g f" "h"] ∧
    log (_cached_shared_ast "g f" "h" w').2 = [EvParse "g f" "h"; EvParse "g f" "h"].
Proof.
  eexists _, _. split; [vm_compute; reflexivity|].
  split; [|split; vm_compute; reflexivity].
  eapply (failure_not_memoized "g f" "h" init_world). vm_compute. reflexivity.
Defined.

(** *** Where the specification says more than the code does *)

(** C5, as stated, fails.  The engine of a candidate with a negative seed
    changes the function and raises; the rendering that [get_source] had
    cached is still there, and is not the rendering of the tree any more. *)
Lemma randomize_ast_failure_keeps_cache :
  let sys := run [Create "g f" "f" (-1); GetSource 0] in
  ∃ c,
    cands sys !! 0 = Some c ∧ _cache_source c = Some "g f" ∧
    match randomize_ast (c, world_of sys) with
    | (r, (c', w')) =>
        r = inl (Raised "RandomizationFailure") ∧
        _cache_source c' = Some "g f" ∧
        _cache_source c' ≠ None ∧
        (render <$> read_tree (heap w') (ast c')) = Some "g f /*m*/" ∧
        (get_source (c', w')).1 = inr "g f"
    end.
Proof.
  eexists. split; [reflexivity|]. split; [reflexivity|].
  vm_compute. split_and!; [reflexivity|reflexivity|discriminate|reflexivity|reflexivity].
Qed.

(** C8, as stated, fails.  The source of a new candidate of the unit "g f"
    is the text of the unit; the rendering of the cached function node is
    the text of the function. *)
Lemma fresh_candidate_source_not_function_text :
  match from_source "g f" "f" 42 init_world with
  | (inr c, w') =>
      ∃ n, nodes (heap w') !! orig_fn c = Some n ∧
           to_c n = inr "f" ∧
           (get_source (c, w')).1 = inr "g f" ∧
           (get_source (c, w')).1 ≠ to_c n
  | (inl _, _) => False
  end.
Proof.
  vm_compute. eexists. split; [reflexivity|].
  split_and!; [reflexivity|reflexivity|discriminate].
Qed.
End examples.
